(** * go-xmlrpc: the parameter code generator (parameter.go)

    A shallow embedding of [getParam] and of the six [Param]
    implementations ([boolParam], [intParam], [stringParam], [structParam],
    [sliceParam], [errorParam]) together with the text they render, and a
    small model of the Go statements that the encode templates emit, so that
    statements about "what the generated code does" can be stated and proved. *)

From Stdlib Require Import String Ascii ZArith List Bool Lia DecimalString
  DecimalNat.
Import ListNotations.
Local Open Scope string_scope.
#[local] Set Warnings "-register-all".

(** ** Strings *)

(** The double-quote character, written by code so that no literal has to
    escape it. *)
Definition dq : string := String "034"%char EmptyString.

(** [strconv.Itoa]: decimal rendering of an integer. *)
Definition Itoa (i : Z) : string := NilZero.string_of_int (Z.to_int i).

(** [substringb s t] decides whether [s] occurs in [t]
    (Go's [strings.Contains t s]). *)
Fixpoint substringb (s t : string) : bool :=
  prefix s t ||
  match t with
  | EmptyString => false
  | String _ t' => substringb s t'
  end.

(** [occurs s t]: [s] occurs somewhere in [t]. *)
Definition occurs (s t : string) : Prop :=
  exists before after, t = before ++ s ++ after.

(** ** The [go/types] values that [getParam] inspects *)

(** [types.BasicKind], the typed kinds a declared variable can have. *)
Inductive BasicKind : Type :=
| Bool
| Int | Int8 | Int16 | Int32 | Int64
| Uint | Uint8 | Uint16 | Uint32 | Uint64 | Uintptr
| Float32 | Float64 | Complex64 | Complex128
| String_
| UnsafePointer.

(** [types.Type]: the dynamic types the type switch of [getParam] tells
    apart.  A struct carries its fields in declaration order; a named type
    carries the text that its [String()] method renders (the qualified
    name); signatures and interfaces, which only reach the [default] branch,
    carry their rendered text too. *)
Inductive GoType : Type :=
| Basic (kind : BasicKind)
| Struct (fields : list (string * GoType))
| Array (len : Z) (elem : GoType)
| Slice (elem : GoType)
| Named (qualified : string)
| Pointer (elem : GoType)
| Map (key elem : GoType)
| Chan (elem : GoType)
| Signature (text : string)
| Interface (text : string).

(** [*types.Var]: a declared name with its type. *)
Record Var : Type := NewVar { Var_Name : string; Var_Type : GoType }.

Definition BasicName (k : BasicKind) : string :=
  match k with
  | Bool => "bool"
  | Int => "int" | Int8 => "int8" | Int16 => "int16"
  | Int32 => "int32" | Int64 => "int64"
  | Uint => "uint" | Uint8 => "uint8" | Uint16 => "uint16"
  | Uint32 => "uint32" | Uint64 => "uint64" | Uintptr => "uintptr"
  | Float32 => "float32" | Float64 => "float64"
  | Complex64 => "complex64" | Complex128 => "complex128"
  | String_ => "string"
  | UnsafePointer => "unsafe.Pointer"
  end.

(** [types.Type.String()], for fields without tags and without embedding. *)
Fixpoint TypeString (t : GoType) : string :=
  match t with
  | Basic k => BasicName k
  | Struct fields =>
      "struct{" ++
      (fix fieldsString (first : bool) (fs : list (string * GoType)) : string :=
         match fs with
         | [] => EmptyString
         | (n, ft) :: rest =>
             (if first then EmptyString else "; ") ++ n ++ " " ++
             TypeString ft ++ fieldsString false rest
         end) true fields ++ "}"
  | Array len elem => "[" ++ Itoa len ++ "]" ++ TypeString elem
  | Slice elem => "[]" ++ TypeString elem
  | Named qualified => qualified
  | Pointer elem => "*" ++ TypeString elem
  | Map key elem => "map[" ++ TypeString key ++ "]" ++ TypeString elem
  | Chan elem => "chan " ++ TypeString elem
  | Signature text => text
  | Interface text => text
  end.

(** ** The [Param] implementations *)

(** The six structs implementing the [Param] interface, as one sum. *)
Inductive Param : Type :=
| boolParam (name : string)
| intParam (bitSize : Z) (name : string) (typ : string) (unsigned : bool)
| structParam (name : string) (typ : string) (params : list Param)
| sliceParam (name : string) (typ : string) (object : Param)
| errorParam (name : string) (typ : string)
| stringParam (name : string).

Definition newBoolParam (name : string) : Param := boolParam name.

(** The composite literal of [newIntParam] leaves [typ] at its zero value. *)
Definition newIntParam (name : string) (bitSize : Z) (unsigned : bool) : Param :=
  intParam bitSize name EmptyString unsigned.

Definition newSliceParam (name typ : string) (obj : Param) : Param :=
  sliceParam name typ obj.

Definition newErrorParam (name : string) : Param := errorParam name "error".

Definition newStringParam (name : string) : Param := stringParam name.

(** [Param.Name()] *)
Definition Name (p : Param) : string :=
  match p with
  | boolParam name => name
  | intParam _ name _ _ => name
  | structParam name _ _ => name
  | sliceParam name _ _ => name
  | errorParam name _ => name
  | stringParam name => name
  end.

(** [Param.Type()] *)
Definition Type_ (p : Param) : string :=
  match p with
  | boolParam _ => "bool"
  | intParam bitSize _ _ unsigned =>
      let result := "int" in
      let result := if unsigned then "u" ++ result else result in
      if (bitSize >? 0)%Z then result ++ Itoa bitSize else result
  | structParam _ typ _ => typ
  | sliceParam _ typ _ => "[]" ++ typ
  | errorParam _ typ => typ
  | stringParam _ => "string"
  end.

(** ** [getParam] *)

(** Modelled from the spec: [Exit] is not in parameter.go; the spec calls it
    a "process-terminating diagnostic, not a recoverable error".  A call
    ends the run with the format and arguments it was given, so no code
    after it is reached. *)
Inductive Resolution : Type :=
| Resolved (p : Param)
| Exit (format : string) (args : list string).

(** The body of [getParam], by recursion on the variable's type.  The slice
    case calls [getParam] on a fresh variable of the same name and the
    element type, so the name is carried along.  The [*types.Struct] case is
    [newStructParam]: its loop appends [getParam(strukt.Field(i))] for
    [i = 0 .. NumFields()-1] and stops at the first [Exit]. *)
Fixpoint getParamOf (name : string) (x : GoType) : Resolution :=
  match x with
  | Basic kind =>
      match kind with
      | Int | Int8 | Int16 | Int32 | Int64 =>
          let bitSize :=
            match kind with
            | Int8 => 8 | Int16 => 16 | Int32 => 32 | Int64 => 64
            | _ => 0
            end%Z in
          Resolved (newIntParam name bitSize false)
      | String_ => Resolved (newStringParam name)
      | Bool => Resolved (newBoolParam name)
      | _ => Exit "not supported param: %v" [TypeString x]
      end
  | Struct fields =>
      match
        (fix loop (fs : list (string * GoType)) (params : list Param)
           : list Param + (string * list string) :=
           match fs with
           | [] => inl params
           | (fname, ftype) :: rest =>
               match getParamOf fname ftype with
               | Resolved p => loop rest (params ++ [p])%list
               | Exit format args => inr (format, args)
               end
           end) fields []
      with
      | inl params => Resolved (structParam name (TypeString x) params)
      | inr (format, args) => Exit format args
      end
  | Array _ _ => Exit "array" []
  | Slice elem =>
      match getParamOf name elem with
      | Resolved sliceElemParam =>
          Resolved (newSliceParam name (TypeString elem) sliceElemParam)
      | Exit format args => Exit format args
      end
  | Named _ =>
      if TypeString x =? "error" then Resolved (newErrorParam "err")
      else Exit "No support for named parameters. use inline definitions." []
  | _ => Exit "not supported param: %v" [TypeString x]
  end.

Definition getParam (variable : Var) : Resolution :=
  getParamOf (Var_Name variable) (Var_Type variable).

(** The reserved failure marker: the named type whose text is [error]. *)
Definition is_failure_marker (x : GoType) : bool :=
  match x with
  | Named qualified => qualified =? "error"
  | _ => false
  end.

(** The shapes the spec calls unsupported: raw fixed-size arrays, and the
    composite or opaque types other than the failure marker (named types,
    pointers, maps, channels, functions, interfaces). *)
Definition unsupported_shape (x : GoType) : bool :=
  match x with
  | Array _ _ => true
  | Named qualified => negb (qualified =? "error")
  | Pointer _ | Map _ _ | Chan _ | Signature _ | Interface _ => true
  | Basic _ | Struct _ | Slice _ => false
  end.

(** [newStructParam]'s loop on its own, for stating facts about it. *)
Fixpoint fieldParams (fs : list (string * GoType)) (params : list Param)
  : list Param + (string * list string) :=
  match fs with
  | [] => inl params
  | (fname, ftype) :: rest =>
      match getParamOf fname ftype with
      | Resolved p => fieldParams rest (params ++ [p])%list
      | Exit format args => inr (format, args)
      end
  end.

(** ** The name allocator and the renderer *)

(** Generation threads the process-wide [variableCounter] through every
    call: a [gen A] takes the counter and returns its result with the
    counter it leaves behind. *)
Definition gen (A : Type) : Type := nat -> A * nat.

Definition ret {A : Type} (a : A) : gen A := fun n => (a, n).

Definition bind {A B : Type} (m : gen A) (k : A -> gen B) : gen B :=
  fun n => let (a, n') := m n in k a n'.

Notation "x <- m ;; k" := (bind m (fun x => k))
  (at level 61, m at next level, right associativity).

(** Modelled from the spec: [GenerateVariableName] is not in parameter.go;
    the spec describes a "process-wide counter-backed generator of fresh
    identifier strings" and says nothing of the text of the names.  That
    text is left open: [name_of prefix n] is the identifier built from the
    optional prefix arguments of a call and the value [n] of the counter. *)
Class NameAllocator : Type :=
  name_of : list string -> nat -> string.

Section Emit.

Context {allocator : NameAllocator}.

Definition GenerateVariableName (prefix : list string) : gen string :=
  fun variableCounter =>
    (name_of prefix (S variableCounter), S variableCounter).

(** [RenderTemplateInto] followed by [buf.String()] is written out as the
    text it produces: the template's text verbatim, each action replaced by
    its value, an assignment action by nothing, a [range] by the
    concatenation of its body over the elements.  The bindings that call
    [GenerateVariableName] in the map literal are evaluated, in source
    order, before the template runs. *)

(** [Param.FromEtree]: the decode fragment. *)
Fixpoint FromEtree (p : Param) (element resultvar errvar : string)
  : gen string :=
  match p with
  | boolParam name =>
      ret ("
	var " ++ resultvar ++ " " ++ Type_ p ++ "
	if " ++ resultvar ++ ", " ++ errvar ++ " = xmlrpc.XPathValueGetBool(" ++ element ++ ", " ++ dq ++ name ++ dq ++ "); " ++ errvar ++ " != nil {
		return
	}
	")
  | intParam _ _ _ _ =>
      let ParseFunc := "XPathValueGetInt" in
      ret ("
	var " ++ resultvar ++ " " ++ Type_ p ++ "
	if " ++ resultvar ++ ", " ++ errvar ++ " = xmlrpc." ++ ParseFunc ++ "(" ++ element ++ ", " ++ dq ++ Name p ++ dq ++ "); " ++ errvar ++ " != nil {
		return
	}")
  | structParam _ _ params =>
      temp <- GenerateVariableName ["name_elem"] ;;
      nameVar <- GenerateVariableName ["name"] ;;
      valueVar <- GenerateVariableName ["value"] ;;
      cases <-
        (fix range (Params : list Param) : gen string :=
           match Params with
           | [] => ret EmptyString
           | param :: rest =>
               paramTmp <- GenerateVariableName [] ;;
               let name := Name param in
               decoded <- FromEtree param valueVar paramTmp "err" ;;
               others <- range rest ;;
               ret (("
				case " ++ dq ++ Name param ++ dq ++ ": " ++ "
				" ++ "
				" ++ decoded ++ "

				// Assign to variable (for pointer support we can provide it here
				" ++ resultvar ++ "." ++ name ++ " = " ++ paramTmp) ++ others)
           end) params ;;
      ret (("
	// rendering struct
	" ++ resultvar ++ " := " ++ Type_ p ++ "{}

	" ++ "
	" ++ "
	" ++ "

	// Lets iterate over given members.
	// @TODO: we should check first " ++ dq ++ "struct" ++ dq ++ " if not provided it's probably error
	for _, member := range " ++ element ++ ".FindElements(" ++ dq ++ "struct/members" ++ dq ++ ") {
		var " ++ temp ++ " *etree.Element
		if " ++ temp ++ " = member.FindElement(" ++ dq ++ "name" ++ dq ++ "); " ++ temp ++ " == nil {
			return errors.New(" ++ dq ++ "no name provided" ++ dq ++ ")
		}

		" ++ nameVar ++ " := " ++ temp ++ ".Text()

		var " ++ valueVar ++ " *etree.Element
		if " ++ valueVar ++ " = member.FindElement(" ++ dq ++ "value" ++ dq ++ "); " ++ valueVar ++ " == nil {
			return errors.New(" ++ dq ++ "no name provided" ++ dq ++ ")
		}

		// switch over param names (over all params)
		switch " ++ nameVar ++ " {
			") ++ cases ++ "
		}
	}
	")
  | sliceParam _ _ object =>
      memberVar <- GenerateVariableName ["member"] ;;
      targetName <- GenerateVariableName ["value"] ;;
      decoded <- FromEtree object memberVar targetName errvar ;;
      ret ("
	// This is slice implementation of " ++ resultvar ++ "
	" ++ resultvar ++ " := []" ++ Type_ p ++ "{}

	" ++ "

	// Lets iterate over given members.
	for _, " ++ memberVar ++ " := range " ++ element ++ ".FindElements(" ++ dq ++ "array/data/value" ++ dq ++ ") {
		" ++ "
		" ++ decoded ++ "
		" ++ resultvar ++ " = append(" ++ resultvar ++ ", " ++ targetName ++ ")
	}
	")
  | errorParam _ _ => ret EmptyString
  | stringParam name =>
      ret ("
	var " ++ resultvar ++ " " ++ Type_ p ++ "
	if " ++ resultvar ++ ", " ++ errvar ++ " = xmlrpc.XPathValueGetString(" ++ element ++ ", " ++ dq ++ name ++ dq ++ "); " ++ errvar ++ " != nil {
		return
	}
	")
  end.

(** [Param.ToEtree]: the encode fragment. *)
Fixpoint ToEtree (p : Param) (element resultvar errvar : string)
  : gen string :=
  match p with
  | boolParam _ =>
      Temp <- GenerateVariableName ["boolstr"] ;;
      ret ("
		" ++ Temp ++ " := " ++ dq ++ "0" ++ dq ++ "
		if " ++ resultvar ++ " {
			" ++ Temp ++ " = " ++ dq ++ "1" ++ dq ++ "
		}
		" ++ element ++ ".CreateElement(" ++ dq ++ "boolean" ++ dq ++ ").SetText(" ++ Temp ++ ")")
  | intParam _ _ _ _ =>
      ret (element ++ ".CreateElement(" ++ dq ++ "int" ++ dq ++ ").SetText(strconv.Itoa(int(" ++ resultvar ++ ")))")
  | structParam _ _ params =>
      StructVar <- GenerateVariableName ["struct"] ;;
      members <-
        (fix range (Params : list Param) : gen string :=
           match Params with
           | [] => ret EmptyString
           | param :: rest =>
               MemberVar <- GenerateVariableName ["member"] ;;
               TempValueVar <- GenerateVariableName ["value"] ;;
               StructItemVar <- GenerateVariableName ["struct_var"] ;;
               encoded <- ToEtree param TempValueVar StructItemVar errvar ;;
               others <- range rest ;;
               ret (("
			" ++ "
			" ++ MemberVar ++ " := " ++ StructVar ++ ".CreateElement(" ++ dq ++ "member" ++ dq ++ ")

			// first create " ++ dq ++ "name" ++ dq ++ " xml element with member name
			" ++ MemberVar ++ ".CreateElement(" ++ dq ++ "name" ++ dq ++ ").SetText(" ++ dq ++ Name param ++ dq ++ ")

			" ++ "
			" ++ TempValueVar ++ " := " ++ MemberVar ++ ".CreateElement(" ++ dq ++ "value" ++ dq ++ ")

			// make shortcut to struct member " ++ "
			" ++ StructItemVar ++ " := " ++ resultvar ++ "." ++ Name param ++ "

			// set value
			" ++ encoded ++ "
		") ++ others)
           end) params ;;
      ret (("
		" ++ StructVar ++ " := " ++ element ++ ".CreateElement(" ++ dq ++ "struct" ++ dq ++ ")
		// iterate over struct members
		") ++ members ++ "
	")
  | sliceParam _ _ object =>
      Temp <- GenerateVariableName ["array_data"] ;;
      TempItem <- GenerateVariableName ["item"] ;;
      TempValueVar <- GenerateVariableName ["value"] ;;
      encoded <- ToEtree object TempValueVar TempItem errvar ;;
      ret (Temp ++ " := " ++ element ++ ".CreateElement(" ++ dq ++ "array" ++ dq ++ ").CreateElement(" ++ dq ++ "data" ++ dq ++ ")
		for _, " ++ TempItem ++ " := range " ++ resultvar ++ " {
			" ++ TempValueVar ++ " := " ++ Temp ++ ".CreateElement(" ++ dq ++ "value" ++ dq ++ ")
			" ++ encoded ++ "
		}
	")
  | errorParam _ _ =>
      CastVar <- GenerateVariableName ["code"] ;;
      StructVar <- GenerateVariableName ["struct"] ;;
      OkVar <- GenerateVariableName ["ok"] ;;
      ErrorCode <- GenerateVariableName ["code"] ;;
      Fault <- GenerateVariableName ["fault"] ;;
      member1 <- GenerateVariableName ["member"] ;;
      member2 <- GenerateVariableName ["member"] ;;
      ret (("

		// move this code to error.
		" ++ Fault ++ " := " ++ element ++ ".CreateElement(" ++ dq ++ "fault" ++ dq ++ ")

		" ++ ErrorCode ++ " := 500

		// Try to cast error to xmlrpc.Error (with code added)
		if " ++ CastVar ++ ", " ++ OkVar ++ " := " ++ resultvar ++ ".(xmlrpc.Error); " ++ OkVar ++ " {
			" ++ ErrorCode ++ " = " ++ CastVar ++ ".Code()
		}

		" ++ StructVar ++ " := " ++ Fault ++ ".CreateElement(" ++ dq ++ "value" ++ dq ++ ").CreateElement(" ++ dq ++ "struct" ++ dq ++ ")

		") ++ ("
		" ++ member1 ++ " := " ++ StructVar ++ ".CreateElement(" ++ dq ++ "member" ++ dq ++ ")
		" ++ member1 ++ ".CreateElement(" ++ dq ++ "name" ++ dq ++ ").SetText(" ++ dq ++ "faultCode" ++ dq ++ ")
		" ++ member1 ++ ".CreateElement(" ++ dq ++ "value" ++ dq ++ ").CreateElement(" ++ dq ++ "int" ++ dq ++ ").SetText(strconv.Itoa(" ++ ErrorCode ++ "))

		") ++ "
		" ++ member2 ++ " := " ++ StructVar ++ ".CreateElement(" ++ dq ++ "member" ++ dq ++ ")
		" ++ member2 ++ ".CreateElement(" ++ dq ++ "name" ++ dq ++ ").SetText(" ++ dq ++ "faultString" ++ dq ++ ")
		" ++ member2 ++ ".CreateElement(" ++ dq ++ "value" ++ dq ++ ").CreateElement(" ++ dq ++ "string" ++ dq ++ ").SetText( " ++ resultvar ++ ".Error())

	")
  | stringParam _ =>
      Temp <- GenerateVariableName [EmptyString] ;;
      ret (element ++ ".CreateElement(" ++ dq ++ "string" ++ dq ++ ").SetText(" ++ resultvar ++ ")")
  end.

(** The [range] loop of [structParam.ToEtree] on its own, for stating facts
    about it. *)
Definition ToEtree_range (StructVar resultvar errvar : string)
  : list Param -> gen string :=
  fix range (Params : list Param) : gen string :=
  match Params with
  | [] => ret EmptyString
  | param :: rest =>
      MemberVar <- GenerateVariableName ["member"] ;;
      TempValueVar <- GenerateVariableName ["value"] ;;
      StructItemVar <- GenerateVariableName ["struct_var"] ;;
      encoded <- ToEtree param TempValueVar StructItemVar errvar ;;
      others <- range rest ;;
      ret (("
			" ++ "
			" ++ MemberVar ++ " := " ++ StructVar ++ ".CreateElement(" ++ dq ++ "member" ++ dq ++ ")

			// first create " ++ dq ++ "name" ++ dq ++ " xml element with member name
			" ++ MemberVar ++ ".CreateElement(" ++ dq ++ "name" ++ dq ++ ").SetText(" ++ dq ++ Name param ++ dq ++ ")

			" ++ "
			" ++ TempValueVar ++ " := " ++ MemberVar ++ ".CreateElement(" ++ dq ++ "value" ++ dq ++ ")

			// make shortcut to struct member " ++ "
			" ++ StructItemVar ++ " := " ++ resultvar ++ "." ++ Name param ++ "

			// set value
			" ++ encoded ++ "
		") ++ others)
  end.

End Emit.

(** ** The Go statements of the encode fragments

    The encode templates emit a small part of Go: short variable
    declarations, assignments, [SetText] calls, an [if], an [if] guarded by
    a type assertion to [xmlrpc.Error], and a [for ... range].  [stmt] is
    that part, white space and comments included, so that [render] gives
    back the emitted text character by character. *)

Inductive expr : Type :=
| Ident (x : string)
| StringLit (s : string)
| IntLit (i : Z)
| CreateElement (receiver : expr) (tag : string)
| StrconvItoa (arg : expr)
| IntConv (arg : expr)
| Selector (operand : expr) (field : string)
| ErrorCall (receiver : expr)
| CodeCall (receiver : expr).

Inductive stmt : Type :=
| Space (blank : string)
| Comment (text : string)
| Define (x : string) (e : expr)
| Assign (x : string) (e : expr)
| SetText (receiver : expr) (pad : string) (arg : expr)
| If (cond : expr) (body : list stmt)
| IfAssert (x ok : string) (e : expr) (body : list stmt)
| ForRange (x : string) (e : expr) (body : list stmt).

Definition newline : string := String "010"%char EmptyString.
Definition tab : string := String "009"%char EmptyString.

Fixpoint tabs (n : nat) : string :=
  match n with
  | O => EmptyString
  | S n' => tab ++ tabs n'
  end.

(** A line break followed by [n] tabs of indentation. *)
Definition line (n : nat) : string := newline ++ tabs n.

Fixpoint render_expr (e : expr) : string :=
  match e with
  | Ident x => x
  | StringLit s => dq ++ s ++ dq
  | IntLit i => Itoa i
  | CreateElement receiver tag =>
      render_expr receiver ++ ".CreateElement(" ++ dq ++ tag ++ dq ++ ")"
  | StrconvItoa arg => "strconv.Itoa(" ++ render_expr arg ++ ")"
  | IntConv arg => "int(" ++ render_expr arg ++ ")"
  | Selector operand field => render_expr operand ++ "." ++ field
  | ErrorCall receiver => render_expr receiver ++ ".Error()"
  | CodeCall receiver => render_expr receiver ++ ".Code()"
  end.

Fixpoint render_stmt (s : stmt) : string :=
  let block :=
    fix block (body : list stmt) : string :=
      match body with
      | [] => EmptyString
      | s' :: rest => render_stmt s' ++ block rest
      end in
  match s with
  | Space blank => blank
  | Comment text => "//" ++ text ++ newline
  | Define x e => x ++ " := " ++ render_expr e
  | Assign x e => x ++ " = " ++ render_expr e
  | SetText receiver pad arg =>
      render_expr receiver ++ ".SetText(" ++ pad ++ render_expr arg ++ ")"
  | If cond body => "if " ++ render_expr cond ++ " {" ++ block body ++ "}"
  | IfAssert x ok e body =>
      "if " ++ x ++ ", " ++ ok ++ " := " ++ render_expr e ++
      ".(xmlrpc.Error); " ++ ok ++ " {" ++ block body ++ "}"
  | ForRange x e body =>
      "for _, " ++ x ++ " := range " ++ render_expr e ++ " {" ++
      block body ++ "}"
  end.

Fixpoint render (code : list stmt) : string :=
  match code with
  | [] => EmptyString
  | s :: rest => render_stmt s ++ render rest
  end.

Section EmitCode.

Context {allocator : NameAllocator}.

(** [Param.ToEtree] once more, producing the statements instead of their
    text; [ToEtree_render] below shows that the text is the same. *)
Fixpoint ToEtreeCode (p : Param) (element resultvar errvar : string)
  : gen (list stmt) :=
  match p with
  | boolParam _ =>
      Temp <- GenerateVariableName ["boolstr"] ;;
      ret [ Space (line 2);
            Define Temp (StringLit "0");
            Space (line 2);
            If (Ident resultvar)
              [ Space (line 3); Assign Temp (StringLit "1"); Space (line 2) ];
            Space (line 2);
            SetText (CreateElement (Ident element) "boolean") EmptyString
              (Ident Temp) ]
  | intParam _ _ _ _ =>
      ret [ SetText (CreateElement (Ident element) "int") EmptyString
              (StrconvItoa (IntConv (Ident resultvar))) ]
  | structParam _ _ params =>
      StructVar <- GenerateVariableName ["struct"] ;;
      members <-
        (fix range (Params : list Param) : gen (list stmt) :=
           match Params with
           | [] => ret []
           | param :: rest =>
               MemberVar <- GenerateVariableName ["member"] ;;
               TempValueVar <- GenerateVariableName ["value"] ;;
               StructItemVar <- GenerateVariableName ["struct_var"] ;;
               encoded <- ToEtreeCode param TempValueVar StructItemVar errvar ;;
               others <- range rest ;;
               ret ([ Space (line 3 ++ line 3);
                      Define MemberVar
                        (CreateElement (Ident StructVar) "member");
                      Space (line 0 ++ line 3);
                      Comment (" first create " ++ dq ++ "name" ++ dq ++
                               " xml element with member name");
                      Space (tabs 3);
                      SetText (CreateElement (Ident MemberVar) "name")
                        EmptyString (StringLit (Name param));
                      Space (line 0 ++ line 3 ++ line 3);
                      Define TempValueVar
                        (CreateElement (Ident MemberVar) "value");
                      Space (line 0 ++ line 3);
                      Comment " make shortcut to struct member ";
                      Space (tabs 3);
                      Define StructItemVar
                        (Selector (Ident resultvar) (Name param));
                      Space (line 0 ++ line 3);
                      Comment " set value";
                      Space (tabs 3) ]
                    ++ encoded ++ [ Space (line 2) ] ++ others)%list
           end) params ;;
      ret ([ Space (line 2);
             Define StructVar (CreateElement (Ident element) "struct");
             Space (line 2);
             Comment " iterate over struct members";
             Space (tabs 2) ]
           ++ members ++ [ Space (line 1) ])%list
  | sliceParam _ _ object =>
      Temp <- GenerateVariableName ["array_data"] ;;
      TempItem <- GenerateVariableName ["item"] ;;
      TempValueVar <- GenerateVariableName ["value"] ;;
      encoded <- ToEtreeCode object TempValueVar TempItem errvar ;;
      ret [ Define Temp
              (CreateElement (CreateElement (Ident element) "array") "data");
            Space (line 2);
            ForRange TempItem (Ident resultvar)
              ([ Space (line 3);
                 Define TempValueVar (CreateElement (Ident Temp) "value");
                 Space (line 3) ]
               ++ encoded ++ [ Space (line 2) ])%list;
            Space (line 1) ]
  | errorParam _ _ =>
      CastVar <- GenerateVariableName ["code"] ;;
      StructVar <- GenerateVariableName ["struct"] ;;
      OkVar <- GenerateVariableName ["ok"] ;;
      ErrorCode <- GenerateVariableName ["code"] ;;
      Fault <- GenerateVariableName ["fault"] ;;
      member1 <- GenerateVariableName ["member"] ;;
      member2 <- GenerateVariableName ["member"] ;;
      ret [ Space (line 0 ++ line 2);
            Comment " move this code to error.";
            Space (tabs 2);
            Define Fault (CreateElement (Ident element) "fault");
            Space (line 0 ++ line 2);
            Define ErrorCode (IntLit 500);
            Space (line 0 ++ line 2);
            Comment " Try to cast error to xmlrpc.Error (with code added)";
            Space (tabs 2);
            IfAssert CastVar OkVar (Ident resultvar)
              [ Space (line 3);
                Assign ErrorCode (CodeCall (Ident CastVar));
                Space (line 2) ];
            Space (line 0 ++ line 2);
            Define StructVar
              (CreateElement (CreateElement (Ident Fault) "value") "struct");
            Space (line 0 ++ line 2 ++ line 2);
            Define member1 (CreateElement (Ident StructVar) "member");
            Space (line 2);
            SetText (CreateElement (Ident member1) "name") EmptyString
              (StringLit "faultCode");
            Space (line 2);
            SetText
              (CreateElement (CreateElement (Ident member1) "value") "int")
              EmptyString (StrconvItoa (Ident ErrorCode));
            Space (line 0 ++ line 2 ++ line 2);
            Define member2 (CreateElement (Ident StructVar) "member");
            Space (line 2);
            SetText (CreateElement (Ident member2) "name") EmptyString
              (StringLit "faultString");
            Space (line 2);
            SetText
              (CreateElement (CreateElement (Ident member2) "value") "string")
              " " (ErrorCall (Ident resultvar));
            Space (line 0 ++ line 1) ]
  | stringParam _ =>
      Temp <- GenerateVariableName [EmptyString] ;;
      ret [ SetText (CreateElement (Ident element) "string") EmptyString
              (Ident resultvar) ]
  end.

(** The [range] loop of the structure case on its own. *)
Definition ToEtreeCode_range (StructVar resultvar errvar : string)
  : list Param -> gen (list stmt) :=
  fix range (Params : list Param) : gen (list stmt) :=
  match Params with
  | [] => ret []
  | param :: rest =>
      MemberVar <- GenerateVariableName ["member"] ;;
      TempValueVar <- GenerateVariableName ["value"] ;;
      StructItemVar <- GenerateVariableName ["struct_var"] ;;
      encoded <- ToEtreeCode param TempValueVar StructItemVar errvar ;;
      others <- range rest ;;
      ret ([ Space (line 3 ++ line 3);
                      Define MemberVar
                        (CreateElement (Ident StructVar) "member");
                      Space (line 0 ++ line 3);
                      Comment (" first create " ++ dq ++ "name" ++ dq ++
                               " xml element with member name");
                      Space (tabs 3);
                      SetText (CreateElement (Ident MemberVar) "name")
                        EmptyString (StringLit (Name param));
                      Space (line 0 ++ line 3 ++ line 3);
                      Define TempValueVar
                        (CreateElement (Ident MemberVar) "value");
                      Space (line 0 ++ line 3);
                      Comment " make shortcut to struct member ";
                      Space (tabs 3);
                      Define StructItemVar
                        (Selector (Ident resultvar) (Name param));
                      Space (line 0 ++ line 3);
                      Comment " set value";
                      Space (tabs 3) ]
                    ++ encoded ++ [ Space (line 2) ] ++ others)%list
  end.

End EmitCode.

(** ** Wire documents

    The emitted fragments use the wire-document primitives of the etree
    library only by name.  To say what a fragment does, a document is an
    element tree, and a [*etree.Element] held by generated code is the path
    of child indices that leads to it from the root; elements are only ever
    appended, so a path keeps pointing at the same element. *)
Inductive Element : Type :=
| Elem (tag : string) (text : string) (children : list Element).

Definition Tag (e : Element) : string := let (tag, _, _) := e in tag.
Definition Text (e : Element) : string := let (_, text, _) := e in text.
Definition Children (e : Element) : list Element :=
  let (_, _, children) := e in children.

Fixpoint subtree (path : list nat) (doc : Element) : option Element :=
  match path with
  | [] => Some doc
  | i :: rest =>
      match nth_error (Children doc) i with
      | Some child => subtree rest child
      | None => None
      end
  end.

Fixpoint update_nth {A : Type} (i : nat) (f : A -> A) (l : list A) : list A :=
  match l, i with
  | [], _ => []
  | x :: l', O => f x :: l'
  | x :: l', S i' => x :: update_nth i' f l'
  end.

(** [update path f doc]: [doc] with the element at [path] replaced by its
    image under [f]. *)
Fixpoint update (path : list nat) (f : Element -> Element) (doc : Element)
  : Element :=
  match path with
  | [] => f doc
  | i :: rest =>
      Elem (Tag doc) (Text doc) (update_nth i (update rest f) (Children doc))
  end.

Definition add_children (cs : list Element) (e : Element) : Element :=
  Elem (Tag e) (Text e) (Children e ++ cs).

Definition add_child (c : Element) (e : Element) : Element :=
  add_children [c] e.

Definition set_text (text : string) (e : Element) : Element :=
  Elem (Tag e) text (Children e).

(** [graft doc path c]: [doc] with [c] appended as the last child of the
    element at [path]. *)
Definition graft (doc : Element) (path : list nat) (c : Element) : Element :=
  update path (add_child c) doc.

(** [e.CreateElement(tag)]: append a new empty element to the children of
    [e] and return it. *)
Definition createElement (path : list nat) (tag : string) (doc : Element)
  : option (list nat * Element) :=
  match subtree path doc with
  | Some e =>
      Some ((path ++ [length (Children e)])%list,
            graft doc path (Elem tag EmptyString []))
  | None => None
  end.

(** [e.SetText(text)] *)
Definition setText (path : list nat) (text : string) (doc : Element)
  : option Element :=
  match subtree path doc with
  | Some _ => Some (update path (set_text text) doc)
  | None => None
  end.

(** The segments of a path such as [struct/member]. *)
Fixpoint segments (current : string) (path : string) : list string :=
  match path with
  | EmptyString => [current]
  | String c rest =>
      if Ascii.eqb c "/"%char then current :: segments EmptyString rest
      else segments (current ++ String c EmptyString) rest
  end.

Fixpoint select (tags : list string) (e : Element) : list Element :=
  match tags with
  | [] => [e]
  | tag :: rest =>
      flat_map (select rest)
        (filter (fun child => Tag child =? tag) (Children e))
  end.

(** [e.FindElements(path)] for a path of child tags: the descendants
    reached by following the tags in turn, in document order. *)
Definition FindElements (path : string) (e : Element) : list Element :=
  select (segments EmptyString path) e.

(** ** Running the emitted statements *)

(** The values generated code handles: the Go values of the supported
    shapes, an [error] with the code it exposes when it implements
    [xmlrpc.Error], and element pointers. *)
Inductive value : Type :=
| VBool (b : bool)
| VInt (i : Z)
| VString (s : string)
| VStruct (fields : list (string * value))
| VSlice (items : list value)
| VError (message : string) (code : option Z)
| VElement (path : list nat).

Definition environment : Type := list (string * value).

Fixpoint lookup {A : Type} (x : string) (env : list (string * A)) : option A :=
  match env with
  | [] => None
  | (y, v) :: rest => if x =? y then Some v else lookup x rest
  end.

(** [x = v] changes the innermost declaration of [x]. *)
Fixpoint assign (x : string) (v : value) (env : environment)
  : option environment :=
  match env with
  | [] => None
  | (y, w) :: rest =>
      if x =? y then Some ((y, v) :: rest)
      else match assign x v rest with
           | Some rest' => Some ((y, w) :: rest')
           | None => None
           end
  end.

(** Leaving a block forgets what the block declared. *)
Definition leave (outer inner : environment) : environment :=
  skipn (length inner - length outer) inner.

Definition is_blank_char (c : ascii) : bool :=
  Ascii.eqb c " "%char || Ascii.eqb c "009"%char || Ascii.eqb c "010"%char.

Fixpoint is_blank (s : string) : bool :=
  match s with
  | EmptyString => true
  | String c rest => is_blank_char c && is_blank rest
  end.

(** Integer conversions and [strconv.Itoa] are taken on a platform whose
    [int] has 64 bits, where [int(x)] keeps the value of every signed
    integer type. *)
Fixpoint eval (e : expr) (env : environment) (doc : Element)
  : option (value * Element) :=
  match e with
  | Ident x =>
      match lookup x env with
      | Some v => Some (v, doc)
      | None => None
      end
  | StringLit s => Some (VString s, doc)
  | IntLit i => Some (VInt i, doc)
  | CreateElement receiver tag =>
      match eval receiver env doc with
      | Some (VElement path, doc1) =>
          match createElement path tag doc1 with
          | Some (path', doc2) => Some (VElement path', doc2)
          | None => None
          end
      | _ => None
      end
  | StrconvItoa arg =>
      match eval arg env doc with
      | Some (VInt i, doc1) => Some (VString (Itoa i), doc1)
      | _ => None
      end
  | IntConv arg =>
      match eval arg env doc with
      | Some (VInt i, doc1) => Some (VInt i, doc1)
      | _ => None
      end
  | Selector operand field =>
      match eval operand env doc with
      | Some (VStruct fields, doc1) =>
          match lookup field fields with
          | Some v => Some (v, doc1)
          | None => None
          end
      | _ => None
      end
  | ErrorCall receiver =>
      match eval receiver env doc with
      | Some (VError message _, doc1) => Some (VString message, doc1)
      | _ => None
      end
  | CodeCall receiver =>
      match eval receiver env doc with
      | Some (VError _ (Some code), doc1) => Some (VInt code, doc1)
      | _ => None
      end
  end.

(** One statement.  [None] is a fragment that does not run: a name that is
    not declared, a value of the wrong type, text between statements that
    is neither white space nor a comment. *)
Fixpoint exec_stmt (s : stmt) (env : environment) (doc : Element)
  : option (environment * Element) :=
  let block :=
    fix block (body : list stmt) (env : environment) (doc : Element)
      : option (environment * Element) :=
      match body with
      | [] => Some (env, doc)
      | s' :: rest =>
          match exec_stmt s' env doc with
          | Some (env', doc') => block rest env' doc'
          | None => None
          end
      end in
  match s with
  | Space blank => if is_blank blank then Some (env, doc) else None
  | Comment text =>
      if substringb newline text then None else Some (env, doc)
  | Define x e =>
      match eval e env doc with
      | Some (v, doc') => Some ((x, v) :: env, doc')
      | None => None
      end
  | Assign x e =>
      match eval e env doc with
      | Some (v, doc') =>
          match assign x v env with
          | Some env' => Some (env', doc')
          | None => None
          end
      | None => None
      end
  | SetText receiver pad arg =>
      if is_blank pad then
        match eval receiver env doc with
        | Some (VElement path, doc1) =>
            match eval arg env doc1 with
            | Some (VString text, doc2) =>
                match setText path text doc2 with
                | Some doc3 => Some (env, doc3)
                | None => None
                end
            | _ => None
            end
        | _ => None
        end
      else None
  | If cond body =>
      match eval cond env doc with
      | Some (VBool true, doc') =>
          match block body env doc' with
          | Some (env', doc'') => Some (leave env env', doc'')
          | None => None
          end
      | Some (VBool false, doc') => Some (env, doc')
      | _ => None
      end
  | IfAssert x ok e body =>
      match eval e env doc with
      | Some (VError message (Some code), doc') =>
          match
            block body
              ((ok, VBool true) :: (x, VError message (Some code)) :: env)
              doc'
          with
          | Some (env', doc'') => Some (leave env env', doc'')
          | None => None
          end
      | Some (VError message None, doc') => Some (env, doc')
      | _ => None
      end
  | ForRange x e body =>
      match eval e env doc with
      | Some (VSlice items, doc') =>
          (fix loop (items : list value) (env : environment) (doc : Element)
             : option (environment * Element) :=
             match items with
             | [] => Some (env, doc)
             | item :: rest =>
                 match block body ((x, item) :: env) doc with
                 | Some (env', doc') => loop rest (leave env env') doc'
                 | None => None
                 end
             end) items env doc'
      | _ => None
      end
  end.

Fixpoint exec (code : list stmt) (env : environment) (doc : Element)
  : option (environment * Element) :=
  match code with
  | [] => Some (env, doc)
  | s :: rest =>
      match exec_stmt s env doc with
      | Some (env', doc') => exec rest env' doc'
      | None => None
      end
  end.

(** The loop of a [for ... range] on its own. *)
Fixpoint exec_range (x : string) (body : list stmt) (items : list value)
  (env : environment) (doc : Element) : option (environment * Element) :=
  match items with
  | [] => Some (env, doc)
  | item :: rest =>
      match exec body ((x, item) :: env) doc with
      | Some (env', doc') => exec_range x body rest (leave env env') doc'
      | None => None
      end
  end.

(** ** The wire form of a value, in the words of the spec

    bool: ["0"]/["1"] text inside a [boolean] element; integer: decimal text
    inside an [int] element; string: raw text inside a [string] element;
    structure: a [struct] element with, for every child in order, a
    [member] holding a [name] element with the child's own name and a
    [value] element with the encoded field; list: an [array] element
    containing a [data] element with one [value] child per item; failure: a
    [fault] element containing a [struct] with the two members [faultCode]
    (500 unless the value exposes a code) and [faultString]. *)

Definition member (name : string) (content : Element) : Element :=
  Elem "member" EmptyString
    [ Elem "name" name []; Elem "value" EmptyString [content] ].

Definition fault (code : Z) (message : string) : Element :=
  Elem "fault" EmptyString
    [ Elem "value" EmptyString
        [ Elem "struct" EmptyString
            [ member "faultCode" (Elem "int" (Itoa code) []);
              member "faultString" (Elem "string" message []) ] ] ].

Fixpoint wire (p : Param) (v : value) : option Element :=
  match p, v with
  | boolParam _, VBool b =>
      Some (Elem "boolean" (if b then "1" else "0") [])
  | intParam _ _ _ _, VInt i => Some (Elem "int" (Itoa i) [])
  | stringParam _, VString s => Some (Elem "string" s [])
  | structParam _ _ params, VStruct fields =>
      match
        (fix members (ps : list Param) : option (list Element) :=
           match ps with
           | [] => Some []
           | param :: rest =>
               match lookup (Name param) fields with
               | Some fv =>
                   match wire param fv, members rest with
                   | Some w, Some ms => Some (member (Name param) w :: ms)
                   | _, _ => None
                   end
               | None => None
               end
           end) params
      with
      | Some ms => Some (Elem "struct" EmptyString ms)
      | None => None
      end
  | sliceParam _ _ object, VSlice items =>
      match
        (fix values (vs : list value) : option (list Element) :=
           match vs with
           | [] => Some []
           | item :: rest =>
               match wire object item, values rest with
               | Some w, Some ws => Some (Elem "value" EmptyString [w] :: ws)
               | _, _ => None
               end
           end) items
      with
      | Some ws =>
          Some (Elem "array" EmptyString [ Elem "data" EmptyString ws ])
      | None => None
      end
  | errorParam _ _, VError message code =>
      Some (fault (match code with Some c => c | None => 500%Z end) message)
  | _, _ => None
  end.

(** The two inner loops of [wire] on their own. *)
Definition wire_members (fields : list (string * value))
  : list Param -> option (list Element) :=
  fix members (ps : list Param) : option (list Element) :=
    match ps with
    | [] => Some []
    | param :: rest =>
        match lookup (Name param) fields with
        | Some fv =>
            match wire param fv, members rest with
            | Some w, Some ms => Some (member (Name param) w :: ms)
            | _, _ => None
            end
        | None => None
        end
    end.

Definition wire_values (object : Param)
  : list value -> option (list Element) :=
  fix values (vs : list value) : option (list Element) :=
    match vs with
    | [] => Some []
    | item :: rest =>
        match wire object item, values rest with
        | Some w, Some ws => Some (Elem "value" EmptyString [w] :: ws)
        | _, _ => None
        end
    end.

(** ** Fresh names

    What the fragments need of the allocator: the same name is never given
    for two values of the counter.  A name is [older n] when no later call
    can return it, and [allocated lo hi] when a call made while the counter
    went from [lo] to [hi] returned it. *)
Section Freshness.

Context {allocator : NameAllocator}.

Definition injective_names : Prop :=
  forall a b i j, name_of a i = name_of b j -> i = j.

Definition older (n : nat) (x : string) : Prop :=
  forall prefix m, n < m -> name_of prefix m <> x.

Definition allocated (lo hi : nat) (x : string) : Prop :=
  exists prefix m, lo < m <= hi /\ x = name_of prefix m.

(** What running the encode fragment of [p] must do: append the wire form
    of the value to the children of the target element, and declare only
    names that the allocator handed out meanwhile. *)
Definition encodes (p : Param) : Prop :=
  forall v w, wire p v = Some w ->
  forall element resultvar errvar n env doc path target,
    older n element -> older n resultvar ->
    lookup element env = Some (VElement path) ->
    lookup resultvar env = Some v ->
    subtree path doc = Some target ->
    exists new,
      exec (fst (ToEtreeCode p element resultvar errvar n)) env doc =
        Some ((new ++ env)%list, graft doc path w) /\
      Forall (allocated n (snd (ToEtreeCode p element resultvar errvar n)))
        (map fst new).

End Freshness.

(** ** An allocator to run examples with

    Names of the form [prefix_N], with [var] for a call without prefix. *)
Definition decimal (n : nat) : string :=
  NilEmpty.string_of_uint (Nat.to_uint n).

#[export] Instance numbered : NameAllocator :=
  fun prefix n =>
    match prefix with
    | [] => "var"
    | first :: _ => first
    end ++ "_" ++ decimal n.

Fixpoint has_underscore (s : string) : bool :=
  match s with
  | EmptyString => false
  | String c rest => Ascii.eqb c "_"%char || has_underscore rest
  end.

(** ** Shapes and nodes as trees *)

(** The shapes [getParam] resolves: signed integers, strings, booleans, the
    failure marker, and structures and lists built from them. *)
Fixpoint supported (x : GoType) : bool :=
  match x with
  | Basic kind =>
      match kind with
      | Bool | Int | Int8 | Int16 | Int32 | Int64 | String_ => true
      | _ => false
      end
  | Struct fields =>
      (fix all (fs : list (string * GoType)) : bool :=
         match fs with
         | [] => true
         | (_, ftype) :: rest => supported ftype && all rest
         end) fields
  | Slice elem => supported elem
  | Named qualified => qualified =? "error"
  | _ => false
  end.

(** Nesting depth of a shape: structures and lists add a level. *)
Fixpoint shape_depth (x : GoType) : nat :=
  match x with
  | Struct fields =>
      S ((fix deepest (fs : list (string * GoType)) : nat :=
            match fs with
            | [] => 0
            | (_, ftype) :: rest => Nat.max (shape_depth ftype) (deepest rest)
            end) fields)
  | Slice elem => S (shape_depth elem)
  | _ => 0
  end.

(** Depth of a node tree. *)
Fixpoint node_depth (p : Param) : nat :=
  match p with
  | structParam _ _ params =>
      S ((fix deepest (ps : list Param) : nat :=
            match ps with
            | [] => 0
            | child :: rest => Nat.max (node_depth child) (deepest rest)
            end) params)
  | sliceParam _ _ object => S (node_depth object)
  | _ => 0
  end.

(** The two inner loops above on their own. *)
Definition all_supported : list (string * GoType) -> bool :=
  fix all (fs : list (string * GoType)) : bool :=
    match fs with
    | [] => true
    | (_, ftype) :: rest => supported ftype && all rest
    end.

Definition deepest_field : list (string * GoType) -> nat :=
  fix deepest (fs : list (string * GoType)) : nat :=
    match fs with
    | [] => 0
    | (_, ftype) :: rest => Nat.max (shape_depth ftype) (deepest rest)
    end.

Definition deepest_child : list Param -> nat :=
  fix deepest (ps : list Param) : nat :=
    match ps with
    | [] => 0
    | child :: rest => Nat.max (node_depth child) (deepest rest)
    end.

(** ** What a fragment declares, and where two paths part *)

(** The identifiers a statement declares, blocks included. *)
Fixpoint declared_stmt (s : stmt) : list string :=
  let block :=
    fix block (body : list stmt) : list string :=
      match body with
      | [] => []
      | s' :: rest => (declared_stmt s' ++ block rest)%list
      end in
  match s with
  | Define x _ => [x]
  | If _ body => block body
  | IfAssert x ok _ body => x :: ok :: block body
  | ForRange x _ body => x :: block body
  | Space _ | Comment _ | Assign _ _ | SetText _ _ _ => []
  end.

Fixpoint declared (code : list stmt) : list string :=
  match code with
  | [] => []
  | s :: rest => (declared_stmt s ++ declared rest)%list
  end.

(** Two paths diverge when they differ at some index that both have:
    neither element is the other or an ancestor of it. *)
Fixpoint diverges (p q : list nat) : bool :=
  match p, q with
  | a :: p', b :: q' => if Nat.eqb a b then diverges p' q' else true
  | _, _ => false
  end.

(** Names handed out while the counter went from [lo] to [hi], each once. *)
Definition handed_out {allocator : NameAllocator} (lo hi : nat)
  (names : list string) : Prop :=
  NoDup names /\ Forall (allocated lo hi) names.

(** ** The Go statements of the decode fragments

    The decode templates emit another small part of Go: variable
    declarations, an extraction guarded by its error, a search for a
    sub-element guarded by [nil], the two kinds of [return], a
    [for ... range] over [FindElements], a [switch] with its [case] labels,
    a field assignment and an [append].  As for the encode side, white
    space and comments are part of the statements, so that
    [render_decode] gives back the emitted text. *)
Inductive dstmt : Type :=
| DSpace (blank : string)
| DComment (text : string)
| VarDecl (x typ : string)
| DefineLiteral (x typ : string)
| IfExtract (x err func element name : string) (body : list dstmt)
| IfFindNil (x from tag : string) (body : list dstmt)
| Return
| ReturnNew (message : string)
| DefineText (x from : string)
| ForFind (x element path : string) (body : list dstmt)
| Switch (x : string) (body : list dstmt)
| Case (label : string)
| AssignField (r field x : string)
| Append (r x : string).

Fixpoint render_dstmt (s : dstmt) : string :=
  let block :=
    fix block (body : list dstmt) : string :=
      match body with
      | [] => EmptyString
      | s' :: rest => render_dstmt s' ++ block rest
      end in
  match s with
  | DSpace blank => blank
  | DComment text => "//" ++ text ++ newline
  | VarDecl x typ => "var " ++ x ++ " " ++ typ
  | DefineLiteral x typ => x ++ " := " ++ typ ++ "{}"
  | IfExtract x err func element name body =>
      "if " ++ x ++ ", " ++ err ++ " = xmlrpc." ++ func ++ "(" ++ element ++
      ", " ++ dq ++ name ++ dq ++ "); " ++ err ++ " != nil {" ++
      block body ++ "}"
  | IfFindNil x from tag body =>
      "if " ++ x ++ " = " ++ from ++ ".FindElement(" ++ dq ++ tag ++ dq ++
      "); " ++ x ++ " == nil {" ++ block body ++ "}"
  | Return => "return"
  | ReturnNew message =>
      "return errors.New(" ++ dq ++ message ++ dq ++ ")"
  | DefineText x from => x ++ " := " ++ from ++ ".Text()"
  | ForFind x element path body =>
      "for _, " ++ x ++ " := range " ++ element ++ ".FindElements(" ++ dq ++
      path ++ dq ++ ") {" ++ block body ++ "}"
  | Switch x body => "switch " ++ x ++ " {" ++ block body ++ "}"
  | Case label => "case " ++ dq ++ label ++ dq ++ ":"
  | AssignField r field x => r ++ "." ++ field ++ " = " ++ x
  | Append r x => r ++ " = append(" ++ r ++ ", " ++ x ++ ")"
  end.

Fixpoint render_decode (code : list dstmt) : string :=
  match code with
  | [] => EmptyString
  | s :: rest => render_dstmt s ++ render_decode rest
  end.

Section EmitDecodeCode.

Context {allocator : NameAllocator}.

(** [Param.FromEtree] once more, producing the statements instead of their
    text; [FromEtree_render] shows that the text is the same. *)
Fixpoint FromEtreeCode (p : Param) (element resultvar errvar : string)
  : gen (list dstmt) :=
  match p with
  | boolParam name =>
      ret [ DSpace (line 1);
            VarDecl resultvar (Type_ p);
            DSpace (line 1);
            IfExtract resultvar errvar "XPathValueGetBool" element name
              [ DSpace (line 2); Return; DSpace (line 1) ];
            DSpace (line 1) ]
  | intParam _ _ _ _ =>
      let ParseFunc := "XPathValueGetInt" in
      ret [ DSpace (line 1);
            VarDecl resultvar (Type_ p);
            DSpace (line 1);
            IfExtract resultvar errvar ParseFunc element (Name p)
              [ DSpace (line 2); Return; DSpace (line 1) ] ]
  | structParam _ _ params =>
      temp <- GenerateVariableName ["name_elem"] ;;
      nameVar <- GenerateVariableName ["name"] ;;
      valueVar <- GenerateVariableName ["value"] ;;
      cases <-
        (fix range (Params : list Param) : gen (list dstmt) :=
           match Params with
           | [] => ret []
           | param :: rest =>
               paramTmp <- GenerateVariableName [] ;;
               let name := Name param in
               decoded <- FromEtreeCode param valueVar paramTmp "err" ;;
               others <- range rest ;;
               ret ([ DSpace (line 4);
                      Case (Name param);
                      DSpace (" " ++ line 4 ++ line 4) ]
                    ++ decoded
                    ++ [ DSpace (line 0 ++ line 4);
                         DComment " Assign to variable (for pointer support we can provide it here";
                         DSpace (tabs 4);
                         AssignField resultvar name paramTmp ]
                    ++ others)%list
           end) params ;;
      ret [ DSpace (line 1);
            DComment " rendering struct";
            DSpace (tabs 1);
            DefineLiteral resultvar (Type_ p);
            DSpace (line 0 ++ line 1 ++ line 1 ++ line 1 ++ line 0 ++ line 1);
            DComment " Lets iterate over given members.";
            DSpace (tabs 1);
            DComment (" @TODO: we should check first " ++ dq ++ "struct" ++ dq
                      ++ " if not provided it's probably error");
            DSpace (tabs 1);
            ForFind "member" element "struct/members"
              ([ DSpace (line 2);
                 VarDecl temp "*etree.Element";
                 DSpace (line 2);
                 IfFindNil temp "member" "name"
                   [ DSpace (line 3);
                     ReturnNew "no name provided";
                     DSpace (line 2) ];
                 DSpace (line 0 ++ line 2);
                 DefineText nameVar temp;
                 DSpace (line 0 ++ line 2);
                 VarDecl valueVar "*etree.Element";
                 DSpace (line 2);
                 IfFindNil valueVar "member" "value"
                   [ DSpace (line 3);
                     ReturnNew "no name provided";
                     DSpace (line 2) ];
                 DSpace (line 0 ++ line 2);
                 DComment " switch over param names (over all params)";
                 DSpace (tabs 2);
                 Switch nameVar
                   ([ DSpace (line 3) ] ++ cases ++ [ DSpace (line 2) ])%list;
                 DSpace (line 1) ]);
            DSpace (line 1) ]
  | sliceParam _ _ object =>
      memberVar <- GenerateVariableName ["member"] ;;
      targetName <- GenerateVariableName ["value"] ;;
      decoded <- FromEtreeCode object memberVar targetName errvar ;;
      ret [ DSpace (line 1);
            DComment (" This is slice implementation of " ++ resultvar);
            DSpace (tabs 1);
            DefineLiteral resultvar ("[]" ++ Type_ p);
            DSpace (line 0 ++ line 1 ++ line 0 ++ line 1);
            DComment " Lets iterate over given members.";
            DSpace (tabs 1);
            ForFind memberVar element "array/data/value"
              ([ DSpace (line 2 ++ line 2) ]
               ++ decoded
               ++ [ DSpace (line 2);
                    Append resultvar targetName;
                    DSpace (line 1) ])%list;
            DSpace (line 1) ]
  | errorParam _ _ => ret []
  | stringParam name =>
      ret [ DSpace (line 1);
            VarDecl resultvar (Type_ p);
            DSpace (line 1);
            IfExtract resultvar errvar "XPathValueGetString" element name
              [ DSpace (line 2); Return; DSpace (line 1) ];
            DSpace (line 1) ]
  end.

(** The [range] loops of the structure case on their own. *)
Definition FromEtreeCode_range (valueVar resultvar : string)
  : list Param -> gen (list dstmt) :=
  fix range (Params : list Param) : gen (list dstmt) :=
    match Params with
    | [] => ret []
    | param :: rest =>
        paramTmp <- GenerateVariableName [] ;;
        let name := Name param in
        decoded <- FromEtreeCode param valueVar paramTmp "err" ;;
        others <- range rest ;;
        ret ([ DSpace (line 4);
               Case (Name param);
               DSpace (" " ++ line 4 ++ line 4) ]
             ++ decoded
             ++ [ DSpace (line 0 ++ line 4);
                  DComment " Assign to variable (for pointer support we can provide it here";
                  DSpace (tabs 4);
                  AssignField resultvar name paramTmp ]
             ++ others)%list
    end.

End EmitDecodeCode.

Section EmitDecodeRange.

Context {allocator : NameAllocator}.

(** The [range] loop of [structParam.FromEtree] on its own. *)
Definition FromEtree_range (valueVar resultvar : string)
  : list Param -> gen string :=
  fix range (Params : list Param) : gen string :=
    match Params with
    | [] => ret EmptyString
    | param :: rest =>
        paramTmp <- GenerateVariableName [] ;;
        let name := Name param in
        decoded <- FromEtree param valueVar paramTmp "err" ;;
        others <- range rest ;;
        ret (("
				case " ++ dq ++ Name param ++ dq ++ ": " ++ "
				" ++ "
				" ++ decoded ++ "

				// Assign to variable (for pointer support we can provide it here
				" ++ resultvar ++ "." ++ name ++ " = " ++ paramTmp) ++ others)
    end.

End EmitDecodeRange.

(** ** The failure convention of decode fragments

    A fragment follows the convention for [errvar] when each of its exits
    is an extraction that assigns [errvar] and whose block is a bare
    [return], and no other [return] occurs in it. *)
Fixpoint only_blank (body : list dstmt) : bool :=
  match body with
  | [] => true
  | DSpace _ :: rest | DComment _ :: rest => only_blank rest
  | _ => false
  end.

Fixpoint exits_bare (body : list dstmt) : bool :=
  match body with
  | DSpace _ :: rest | DComment _ :: rest => exits_bare rest
  | Return :: rest => only_blank rest
  | _ => false
  end.

Fixpoint follows_convention (errvar : string) (s : dstmt) : bool :=
  let all :=
    fix all (body : list dstmt) : bool :=
      match body with
      | [] => true
      | s' :: rest => follows_convention errvar s' && all rest
      end in
  match s with
  | IfExtract _ err _ _ _ body => (err =? errvar) && exits_bare body
  | Return | ReturnNew _ => false
  | IfFindNil _ _ _ body | ForFind _ _ _ body | Switch _ body => all body
  | DSpace _ | DComment _ | VarDecl _ _ | DefineLiteral _ _
  | DefineText _ _ | Case _ | AssignField _ _ _ | Append _ _ => true
  end.

Definition all_follow (errvar : string) : list dstmt -> bool :=
  fix all (body : list dstmt) : bool :=
    match body with
    | [] => true
    | s' :: rest => follows_convention errvar s' && all rest
    end.

(** A node with no structure in it. *)
Fixpoint struct_free (p : Param) : bool :=
  match p with
  | structParam _ _ _ => false
  | sliceParam _ _ object => struct_free object
  | _ => true
  end.

(** ** Counting names *)

(** The names [ToEtree] takes from the allocator for a node. *)
Fixpoint encode_names (p : Param) : nat :=
  match p with
  | boolParam _ => 1
  | intParam _ _ _ _ => 0
  | structParam _ _ params =>
      1 + (fix total (ps : list Param) : nat :=
             match ps with
             | [] => 0
             | child :: rest => 3 + encode_names child + total rest
             end) params
  | sliceParam _ _ object => 3 + encode_names object
  | errorParam _ _ => 7
  | stringParam _ => 1
  end.

(** The names [FromEtree] takes from the allocator for a node. *)
Fixpoint decode_names (p : Param) : nat :=
  match p with
  | structParam _ _ params =>
      3 + (fix total (ps : list Param) : nat :=
             match ps with
             | [] => 0
             | child :: rest => 1 + decode_names child + total rest
             end) params
  | sliceParam _ _ object => 2 + decode_names object
  | _ => 0
  end.

Definition encode_names_of_children : list Param -> nat :=
  fix total (ps : list Param) : nat :=
    match ps with
    | [] => 0
    | child :: rest => 3 + encode_names child + total rest
    end.

Definition decode_names_of_children : list Param -> nat :=
  fix total (ps : list Param) : nat :=
    match ps with
    | [] => 0
    | child :: rest => 1 + decode_names child + total rest
    end.

(** * Facts *)

(** ** Strings *)

Lemma append_assoc (a b c : string) : (a ++ b) ++ c = a ++ (b ++ c).
Proof. induction a as [|ch a IH]; simpl; [reflexivity | now rewrite IH]. Qed.

Lemma append_nil_r (a : string) : a ++ EmptyString = a.
Proof. induction a as [|ch a IH]; simpl; [reflexivity | now rewrite IH]. Qed.

(** Brings a text built with [++] to its right-nested form. *)
Ltac norm_text := repeat (rewrite ?append_assoc; cbn [append]).

Lemma prefix_split (s t : string) :
  prefix s t = true -> exists after, t = s ++ after.
Proof.
  revert s; induction t as [|c t IH]; intros [|d s]; simpl; intros H;
    try discriminate.
  - now exists EmptyString.
  - now exists (String c t).
  - destruct (ascii_dec d c) as [->|]; [|discriminate].
    destruct (IH _ H) as [after ->]. now exists after.
Qed.

Lemma split_prefix (s after : string) : prefix s (s ++ after) = true.
Proof.
  induction s as [|c s IH]; simpl.
  - now destruct after.
  - destruct (ascii_dec c c); [exact IH | congruence].
Qed.

Lemma substringb_occurs (s t : string) :
  substringb s t = true <-> occurs s t.
Proof.
  split.
  - induction t as [|c t IH]; intros H.
    + destruct s; [|discriminate]. now exists EmptyString, EmptyString.
    + change (prefix s (String c t) || substringb s t = true) in H.
      apply orb_true_iff in H as [H|H].
      * destruct (prefix_split _ _ H) as [after E].
        now exists EmptyString, after.
      * destruct (IH H) as (b & a & ->). now exists (String c b), a.
  - intros (b & a & ->). induction b as [|c b IH].
    + change (EmptyString ++ s ++ a) with (s ++ a).
      assert (P := split_prefix s a).
      destruct (s ++ a) as [|c r].
      * change (prefix s EmptyString || false = true). now rewrite P.
      * change (prefix s (String c r) || substringb s r = true).
        now rewrite P.
    + change (prefix s (String c (b ++ s ++ a)) || substringb s (b ++ s ++ a)
              = true).
      rewrite IH. apply orb_true_r.
Qed.

(** ** [getParam] *)

Lemma getParamOf_Struct (name : string) (fields : list (string * GoType)) :
  getParamOf name (Struct fields) =
  match fieldParams fields [] with
  | inl params => Resolved (structParam name (TypeString (Struct fields)) params)
  | inr (format, args) => Exit format args
  end.
Proof. reflexivity. Qed.


(** ** The statements and the text *)

Lemma render_app (a b : list stmt) :
  render (a ++ b) = render a ++ render b.
Proof.
  induction a as [|s a IH]; simpl; [reflexivity|].
  now rewrite IH, append_assoc.
Qed.

(** Induction on a [Param] that reaches the children of a structure. *)
Section ParamInduction.

Variable P : Param -> Prop.
Hypothesis P_bool : forall name, P (boolParam name).
Hypothesis P_int : forall bitSize name typ unsigned,
  P (intParam bitSize name typ unsigned).
Hypothesis P_struct : forall name typ params,
  Forall P params -> P (structParam name typ params).
Hypothesis P_slice : forall name typ object,
  P object -> P (sliceParam name typ object).
Hypothesis P_error : forall name typ, P (errorParam name typ).
Hypothesis P_string : forall name, P (stringParam name).

Fixpoint Param_nested_ind (p : Param) : P p :=
  match p with
  | boolParam name => P_bool name
  | intParam bitSize name typ unsigned => P_int bitSize name typ unsigned
  | structParam name typ params =>
      P_struct name typ params
        ((fix all (ps : list Param) : Forall P ps :=
            match ps with
            | [] => Forall_nil P
            | q :: rest => Forall_cons q (Param_nested_ind q) (all rest)
            end) params)
  | sliceParam name typ object =>
      P_slice name typ object (Param_nested_ind object)
  | errorParam name typ => P_error name typ
  | stringParam name => P_string name
  end.

End ParamInduction.

Section RenderFacts.

Context {allocator : NameAllocator}.

Lemma ToEtree_struct name typ params element resultvar errvar n :
  ToEtree (structParam name typ params) element resultvar errvar n =
  (StructVar <- GenerateVariableName ["struct"] ;;
   members <- ToEtree_range StructVar resultvar errvar params ;;
   ret (("
		" ++ StructVar ++ " := " ++ element ++ ".CreateElement(" ++ dq ++ "struct" ++ dq ++ ")
		// iterate over struct members
		") ++ members ++ "
	")) n.
Proof. reflexivity. Qed.

Lemma ToEtreeCode_struct name typ params element resultvar errvar n :
  ToEtreeCode (structParam name typ params) element resultvar errvar n =
  (StructVar <- GenerateVariableName ["struct"] ;;
   members <- ToEtreeCode_range StructVar resultvar errvar params ;;
   ret ([ Space (line 2);
          Define StructVar (CreateElement (Ident element) "struct");
          Space (line 2);
          Comment " iterate over struct members";
          Space (tabs 2) ]
        ++ members ++ [ Space (line 1) ])%list) n.
Proof. reflexivity. Qed.

Lemma ToEtree_range_render (params : list Param) :
  Forall (fun p => forall element resultvar errvar n,
    ToEtree p element resultvar errvar n =
    (render (fst (ToEtreeCode p element resultvar errvar n)),
     snd (ToEtreeCode p element resultvar errvar n))) params ->
  forall StructVar resultvar errvar n,
    ToEtree_range StructVar resultvar errvar params n =
    (render (fst (ToEtreeCode_range StructVar resultvar errvar params n)),
     snd (ToEtreeCode_range StructVar resultvar errvar params n)).
Proof.
  induction 1 as [|p ps Hp _ IH]; intros StructVar resultvar errvar n.
  - reflexivity.
  - cbn. unfold bind, GenerateVariableName.
    fold (ToEtree_range StructVar resultvar errvar).
    fold (ToEtreeCode_range StructVar resultvar errvar).
    rewrite Hp.
    destruct (ToEtreeCode p _ _ _ _) as [code n']. cbn [fst snd].
    rewrite IH.
    destruct (ToEtreeCode_range _ _ _ ps n') as [codes n'']. cbn [fst snd].
    f_equal. cbn. rewrite !render_app. cbn. norm_text. reflexivity.
Qed.

(** The text that [ToEtree] returns is the rendering of the statements of
    [ToEtreeCode], and both leave the counter at the same value. *)
Lemma ToEtree_render (p : Param) :
  forall element resultvar errvar n,
    ToEtree p element resultvar errvar n =
    (render (fst (ToEtreeCode p element resultvar errvar n)),
     snd (ToEtreeCode p element resultvar errvar n)).
Proof.
  induction p using Param_nested_ind; intros element resultvar errvar n.
  - cbn. norm_text. reflexivity.
  - cbn. norm_text. reflexivity.
  - rewrite ToEtree_struct, ToEtreeCode_struct.
    unfold bind, GenerateVariableName.
    rewrite (ToEtree_range_render _ H).
    destruct (ToEtreeCode_range _ _ _ params _) as [codes n']. cbn [fst snd].
    f_equal. cbn. rewrite !render_app. cbn. norm_text. reflexivity.
  - cbn. unfold bind, GenerateVariableName. rewrite IHp.
    destruct (ToEtreeCode p _ _ _ _) as [code n']. cbn.
    rewrite !render_app. cbn. norm_text. reflexivity.
  - cbn. norm_text. reflexivity.
  - cbn. norm_text. reflexivity.
Qed.

End RenderFacts.

(** ** Wire documents *)

Lemma nth_error_update_nth {A : Type} (f : A -> A) (l : list A) (i : nat) :
  nth_error (update_nth i f l) i = option_map f (nth_error l i).
Proof.
  revert i; induction l as [|x l IH]; intros [|i]; simpl; auto.
Qed.

Lemma update_nth_ext_at {A : Type} (f g : A -> A) (l : list A) (i : nat) :
  (forall x, nth_error l i = Some x -> f x = g x) ->
  update_nth i f l = update_nth i g l.
Proof.
  revert i; induction l as [|x l IH]; intros [|i] H; simpl; auto.
  - now rewrite (H x).
  - f_equal. apply IH. exact H.
Qed.

Lemma update_nth_twice {A : Type} (f g : A -> A) (l : list A) (i : nat) :
  update_nth i f (update_nth i g l) = update_nth i (fun x => f (g x)) l.
Proof.
  revert i; induction l as [|x l IH]; intros [|i]; simpl; auto.
  now rewrite IH.
Qed.

Lemma update_nth_last {A : Type} (f : A -> A) (l : list A) (x : A) :
  update_nth (length l) f (l ++ [x]) = (l ++ [f x])%list.
Proof. induction l as [|y l IH]; simpl; [reflexivity | now rewrite IH]. Qed.

Lemma nth_error_last {A : Type} (l : list A) (x : A) :
  nth_error (l ++ [x]) (length l) = Some x.
Proof. induction l as [|y l IH]; simpl; auto. Qed.

Lemma update_ext_at (path : list nat) (f g : Element -> Element) :
  forall doc,
    (forall e, subtree path doc = Some e -> f e = g e) ->
    update path f doc = update path g doc.
Proof.
  induction path as [|i path IH]; intros doc H; simpl.
  - now apply H.
  - f_equal. apply update_nth_ext_at. intros child Hc. apply IH.
    intros e He. apply H. simpl. now rewrite Hc.
Qed.

Lemma update_twice (path : list nat) (f g : Element -> Element) :
  forall doc,
    update path f (update path g doc) = update path (fun e => f (g e)) doc.
Proof.
  induction path as [|i path IH]; intros doc; simpl; [reflexivity|].
  f_equal. rewrite update_nth_twice. apply update_nth_ext_at.
  intros child _. apply IH.
Qed.

Lemma subtree_update (path : list nat) (f : Element -> Element) :
  forall doc,
    subtree path (update path f doc) = option_map f (subtree path doc).
Proof.
  induction path as [|i path IH]; intros doc; simpl; [reflexivity|].
  rewrite nth_error_update_nth.
  destruct (nth_error (Children doc) i) as [child|]; simpl; auto.
Qed.

(** What lies below a grafted element is the grafted element's own. *)
Lemma subtree_graft_below (path q : list nat) (c : Element) :
  forall doc target,
    subtree path doc = Some target ->
    subtree (path ++ length (Children target) :: q) (graft doc path c) =
    subtree q c.
Proof.
  unfold graft.
  induction path as [|i path IH]; intros doc target H; simpl in *.
  - injection H as ->. now rewrite nth_error_last.
  - rewrite nth_error_update_nth.
    destruct (nth_error (Children doc) i) as [child|]; [|discriminate].
    simpl. now apply IH.
Qed.

Lemma update_graft_below (path q : list nat) (f : Element -> Element)
  (c : Element) :
  forall doc target,
    subtree path doc = Some target ->
    update (path ++ length (Children target) :: q) f (graft doc path c) =
    graft doc path (update q f c).
Proof.
  unfold graft.
  induction path as [|i path IH]; intros doc target H; simpl in *.
  - injection H as ->. now rewrite update_nth_last.
  - f_equal. rewrite update_nth_twice. apply update_nth_ext_at.
    intros child Hc. rewrite Hc in H. now apply IH with (target := target).
Qed.

Lemma subtree_graft (path : list nat) (c : Element) (doc target : Element) :
  subtree path doc = Some target ->
  subtree path (graft doc path c) = Some (add_child c target).
Proof. intros H. unfold graft. now rewrite subtree_update, H. Qed.

Lemma add_children_graft (path : list nat) (c : Element) (cs : list Element)
  (doc : Element) :
  update path (add_children cs) (graft doc path c) =
  update path (add_children (c :: cs)) doc.
Proof.
  unfold graft. rewrite update_twice. apply update_ext_at.
  intros [tag text children] _. unfold add_children, add_child, add_children.
  simpl. now rewrite <- app_assoc.
Qed.

Lemma add_children_nil (path : list nat) (doc target : Element) :
  subtree path doc = Some target ->
  update path (add_children []) doc = doc.
Proof.
  revert doc; induction path as [|i path IH]; intros doc H; simpl in *.
  - destruct doc as [tag text children]. unfold add_children. simpl.
    now rewrite app_nil_r.
  - destruct doc as [tag text children]. simpl in *. f_equal.
    revert i H. induction children as [|ch children IHc]; intros [|i] H;
      simpl in *; auto; try discriminate.
    + f_equal. now apply IH.
    + f_equal. now apply IHc.
Qed.

Lemma createElement_top (path : list nat) (tag : string)
  (doc target : Element) :
  subtree path doc = Some target ->
  createElement path tag doc =
  Some ((path ++ [length (Children target)])%list,
        graft doc path (Elem tag EmptyString [])).
Proof. intros H. unfold createElement. now rewrite H. Qed.

Lemma createElement_below (path q : list nat) (tag : string)
  (doc target c : Element) :
  subtree path doc = Some target ->
  createElement (path ++ length (Children target) :: q) tag
    (graft doc path c) =
  match createElement q tag c with
  | Some (q', c') =>
      Some ((path ++ length (Children target) :: q')%list, graft doc path c')
  | None => None
  end.
Proof.
  intros H. unfold createElement.
  rewrite (subtree_graft_below _ _ _ _ _ H).
  destruct (subtree q c) as [e|]; [|reflexivity].
  f_equal. f_equal.
  - now rewrite <- app_assoc.
  - unfold graft at 1. now rewrite (update_graft_below _ _ _ _ _ _ H).
Qed.

Lemma setText_below (path q : list nat) (text : string)
  (doc target c : Element) :
  subtree path doc = Some target ->
  setText (path ++ length (Children target) :: q) text (graft doc path c) =
  match setText q text c with
  | Some c' => Some (graft doc path c')
  | None => None
  end.
Proof.
  intros H. unfold setText.
  rewrite (subtree_graft_below _ _ _ _ _ H).
  destruct (subtree q c) as [e|]; [|reflexivity].
  now rewrite (update_graft_below _ _ _ _ _ _ H).
Qed.

Lemma graft_graft_below (path q : list nat) (doc target c w : Element) :
  subtree path doc = Some target ->
  graft (graft doc path c) (path ++ length (Children target) :: q) w =
  graft doc path (graft c q w).
Proof.
  intros H. unfold graft at 1.
  now rewrite (update_graft_below _ _ _ _ _ _ H).
Qed.

Lemma add_children_graft_below (path q : list nat) (doc target c : Element)
  (cs : list Element) :
  subtree path doc = Some target ->
  update (path ++ length (Children target) :: q) (add_children cs)
    (graft doc path c) =
  graft doc path (update q (add_children cs) c).
Proof. apply update_graft_below. Qed.

(** ** Environments *)

Lemma lookup_here {A : Type} (x : string) (v : A) (env : list (string * A)) :
  lookup x ((x, v) :: env) = Some v.
Proof. simpl. now rewrite String.eqb_refl. Qed.

Lemma lookup_skip {A : Type} (x y : string) (v : A)
  (env : list (string * A)) :
  y <> x -> lookup x ((y, v) :: env) = lookup x env.
Proof.
  intros H. simpl. destruct (String.eqb_spec x y); [congruence | reflexivity].
Qed.

Lemma lookup_app {A : Type} (x : string) (new env : list (string * A)) :
  ~ In x (map fst new) -> lookup x (new ++ env)%list = lookup x env.
Proof.
  induction new as [|[y v] new IH]; simpl; intros H; [reflexivity|].
  destruct (String.eqb_spec x y) as [->|]; [tauto | apply IH; tauto].
Qed.

Lemma assign_here (x : string) (v w : value) (env : environment) :
  assign x v ((x, w) :: env) = Some ((x, v) :: env).
Proof. simpl. now rewrite String.eqb_refl. Qed.

Lemma assign_skip (x y : string) (v w : value) (env : environment) :
  y <> x ->
  assign x v ((y, w) :: env) =
  match assign x v env with
  | Some env' => Some ((y, w) :: env')
  | None => None
  end.
Proof.
  intros H. simpl. destruct (String.eqb_spec x y); [congruence | reflexivity].
Qed.

Lemma leave_app (outer new : environment) :
  leave outer (new ++ outer)%list = outer.
Proof.
  unfold leave. rewrite length_app.
  replace (length new + length outer - length outer) with (length new) by lia.
  induction new as [|b new IH]; simpl; auto.
Qed.

Lemma leave_same (outer : environment) : leave outer outer = outer.
Proof. exact (leave_app outer []). Qed.

(** ** Running statements *)

Lemma exec_stmt_If cond body env doc :
  exec_stmt (If cond body) env doc =
  match eval cond env doc with
  | Some (VBool true, doc') =>
      match exec body env doc' with
      | Some (env', doc'') => Some (leave env env', doc'')
      | None => None
      end
  | Some (VBool false, doc') => Some (env, doc')
  | _ => None
  end.
Proof. reflexivity. Qed.

Lemma exec_stmt_IfAssert x ok e body env doc :
  exec_stmt (IfAssert x ok e body) env doc =
  match eval e env doc with
  | Some (VError message (Some code), doc') =>
      match
        exec body ((ok, VBool true) :: (x, VError message (Some code)) :: env)
          doc'
      with
      | Some (env', doc'') => Some (leave env env', doc'')
      | None => None
      end
  | Some (VError message None, doc') => Some (env, doc')
  | _ => None
  end.
Proof. reflexivity. Qed.

Lemma exec_stmt_ForRange x e body env doc :
  exec_stmt (ForRange x e body) env doc =
  match eval e env doc with
  | Some (VSlice items, doc') => exec_range x body items env doc'
  | _ => None
  end.
Proof.
  cbn [exec_stmt]. destruct (eval e env doc) as [[[] doc']|]; try reflexivity.
  revert env doc'. induction items as [|item items IH]; intros env doc';
    [reflexivity|].
  cbn [exec_range].
  change ((fix block (body0 : list stmt) (env0 : environment) (doc0 : Element)
             {struct body0} : option (environment * Element) :=
             match body0 with
             | [] => Some (env0, doc0)
             | s' :: rest =>
                 match exec_stmt s' env0 doc0 with
                 | Some (env', doc'0) => block rest env' doc'0
                 | None => None
                 end
             end) body ((x, item) :: env) doc')
    with (exec body ((x, item) :: env) doc').
  destruct (exec body ((x, item) :: env) doc') as [[env' doc'']|];
    [apply IH | reflexivity].
Qed.

Lemma exec_app (a b : list stmt) env doc :
  exec (a ++ b)%list env doc =
  match exec a env doc with
  | Some (env', doc') => exec b env' doc'
  | None => None
  end.
Proof.
  revert env doc; induction a as [|s a IH]; intros env doc; simpl;
    [reflexivity|].
  destruct (exec_stmt s env doc) as [[env' doc']|]; [apply IH | reflexivity].
Qed.

(** ** The encode fragments run as the spec says *)

Section Encoding.

Context {allocator : NameAllocator}.
Hypothesis fresh : injective_names.

Lemma older_name (prefix : list string) (i n : nat) :
  i <= n -> older n (name_of prefix i).
Proof. intros H a m Hm E. apply fresh in E. lia. Qed.

Lemma older_le (n n' : nat) (x : string) :
  n <= n' -> older n x -> older n' x.
Proof. intros H O a m Hm. apply O. lia. Qed.

Lemma older_neq (n i : nat) (x : string) (prefix : list string) :
  older n x -> n < i -> name_of prefix i <> x.
Proof. intros O H. now apply O. Qed.

Lemma name_neq (a b : list string) (i j : nat) :
  i <> j -> name_of a i <> name_of b j.
Proof. intros H E. apply fresh in E. contradiction. Qed.

Lemma allocated_le (lo lo' hi hi' : nat) (x : string) :
  lo' <= lo -> hi <= hi' -> allocated lo hi x -> allocated lo' hi' x.
Proof.
  intros H1 H2 (a & m & Hm & ->). exists a, m. split; [lia | reflexivity].
Qed.

Lemma allocated_name (lo hi i : nat) (prefix : list string) :
  lo < i <= hi -> allocated lo hi (name_of prefix i).
Proof. intros H. now exists prefix, i. Qed.

Lemma older_not_allocated (n hi : nat) (x : string)
  (new : list (string * value)) :
  older n x -> Forall (allocated n hi) (map fst new) ->
  ~ In x (map fst new).
Proof.
  intros O F I. rewrite Forall_forall in F.
  destruct (F _ I) as (a & m & Hm & E). apply (O a m); [lia | now symmetry].
Qed.

Ltac closed_checks :=
  repeat match goal with
  | |- context [is_blank ?s] =>
      let b := eval vm_compute in (is_blank s) in
      change (is_blank s) with b
  | |- context [substringb newline ?s] =>
      let b := eval vm_compute in (substringb newline s) in
      change (substringb newline s) with b
  end.

Ltac names :=
  solve [ apply name_neq; lia
        | eapply older_neq; [eassumption | lia]
        | apply not_eq_sym; eapply older_neq; [eassumption | lia]
        | eapply older_name; lia
        | eapply older_le; [|eassumption]; lia ].

Ltac look :=
  repeat first
    [ rewrite lookup_here
    | rewrite lookup_skip by names
    | rewrite assign_here
    | rewrite assign_skip by names ].

Lemma leave_update (b b' : string * value) (env : environment) :
  leave (b :: env) (b' :: env) = b' :: env.
Proof.
  unfold leave. simpl. now rewrite Nat.sub_diag.
Qed.

Lemma leave_keep (outer new rest : environment) :
  length rest = length outer -> leave outer (new ++ rest)%list = rest.
Proof.
  intros H. unfold leave. rewrite length_app.
  replace (length new + length rest - length outer) with (length new) by lia.
  induction new as [|x new IH]; simpl; auto.
Qed.

Lemma leave_two (a b c c' : string * value) (env : environment) :
  leave (c :: env) (a :: b :: c' :: env) = c' :: env.
Proof. exact (leave_keep (c :: env) [a; b] (c' :: env) eq_refl). Qed.

Ltac local :=
  repeat match goal with
  | |- context [createElement ?q ?tag (Elem ?a ?b ?c)] =>
      let r := eval cbv [createElement subtree graft update update_nth
                         nth_error add_child add_children Children Tag Text
                         length app] in
               (createElement q tag (Elem a b c)) in
      change (createElement q tag (Elem a b c)) with r
  | |- context [setText ?q ?text (Elem ?a ?b ?c)] =>
      let r := eval cbv [setText subtree graft update update_nth
                         nth_error set_text Children Tag Text
                         length app] in
               (setText q text (Elem a b c)) in
      change (setText q text (Elem a b c)) with r
  | |- context [graft (Elem ?a ?b ?c) ?q ?w] =>
      let r := eval cbv [graft update update_nth add_child add_children
                         Children Tag Text app] in
               (graft (Elem a b c) q w) in
      change (graft (Elem a b c) q w) with r
  | |- context [update ?q (add_children ?cs) (Elem ?a ?b ?c)] =>
      let r := eval cbv [update update_nth add_children
                         Children Tag Text app] in
               (update q (add_children cs) (Elem a b c)) in
      change (update q (add_children cs) (Elem a b c)) with r
  | |- context [subtree ?q (Elem ?a ?b ?c)] =>
      let r := eval cbv [subtree nth_error Children] in
               (subtree q (Elem a b c)) in
      change (subtree q (Elem a b c)) with r
  end.

Ltac docs T :=
  repeat first
    [ rewrite (createElement_top _ _ _ _ T)
    | rewrite (createElement_below _ _ _ _ _ _ T)
    | rewrite (setText_below _ _ _ _ _ _ T)
    | rewrite (graft_graft_below _ _ _ _ _ _ T)
    | rewrite (add_children_graft_below _ _ _ _ _ _ T)
    | rewrite (subtree_graft_below _ _ _ _ _ T)
    | progress local
    | progress cbv beta iota ].

Ltac run T :=
  cbn [exec exec_stmt eval app]; closed_checks; cbv beta iota;
  repeat (progress (look; docs T)).

Lemma ToEtreeCode_range_counter (params : list Param) :
  Forall (fun p => forall element resultvar errvar n,
            n <= snd (ToEtreeCode p element resultvar errvar n)) params ->
  forall StructVar resultvar errvar n,
    n <= snd (ToEtreeCode_range StructVar resultvar errvar params n).
Proof.
  induction 1 as [|p ps Hp _ IH]; intros StructVar resultvar errvar n.
  - cbn. lia.
  - cbn [ToEtreeCode_range]. unfold bind, ret, GenerateVariableName.
    fold (ToEtreeCode_range StructVar resultvar errvar).
    specialize (Hp (name_of ["value"] (S (S n)))
                  (name_of ["struct_var"] (S (S (S n)))) errvar (S (S (S n)))).
    destruct (ToEtreeCode p _ _ _ _) as [code n1]. cbn [snd] in Hp.
    specialize (IH StructVar resultvar errvar n1).
    destruct (ToEtreeCode_range _ _ _ ps n1) as [codes n2]. cbn [snd] in *.
    lia.
Qed.

(** Generation never turns the counter back. *)
Lemma ToEtreeCode_counter (p : Param) :
  forall element resultvar errvar n,
    n <= snd (ToEtreeCode p element resultvar errvar n).
Proof.
  induction p using Param_nested_ind; intros element resultvar errvar n;
    try (cbn; lia).
  - rewrite ToEtreeCode_struct.
    unfold bind, ret, GenerateVariableName.
    pose proof (ToEtreeCode_range_counter _ H (name_of ["struct"] (S n))
                  resultvar errvar (S n)) as L.
    destruct (ToEtreeCode_range _ _ _ params _) as [codes n1].
    cbn [snd] in *. lia.
  - cbn [ToEtreeCode]. unfold bind, ret, GenerateVariableName.
    specialize (IHp (name_of ["value"] (S (S (S n))))
                  (name_of ["item"] (S (S n))) errvar (S (S (S n)))).
    destruct (ToEtreeCode p _ _ _ _) as [code n1]. cbn [snd] in *. lia.
Qed.

Lemma encodes_bool name : encodes (boolParam name).
Proof.
  intros v w W element resultvar errvar n env doc path target OE OR LE LR T.
  destruct v; try discriminate. injection W as <-.
  exists [(name_of ["boolstr"] (S n), VString (if b then "1" else "0"))].
  cbn [ToEtreeCode bind ret GenerateVariableName fst snd].
  split.
  - run T. rewrite LR. destruct b; cbv beta iota; rewrite ?leave_update;
      run T; rewrite LE; run T; reflexivity.
  - repeat constructor. apply allocated_name. lia.
Qed.

Lemma encodes_int bitSize name typ unsigned :
  encodes (intParam bitSize name typ unsigned).
Proof.
  intros v w W element resultvar errvar n env doc path target OE OR LE LR T.
  destruct v; try discriminate. injection W as <-.
  exists [].
  cbn [ToEtreeCode bind ret GenerateVariableName fst snd].
  split.
  - run T. rewrite LE. run T. rewrite LR. run T. reflexivity.
  - constructor.
Qed.

Lemma encodes_string name : encodes (stringParam name).
Proof.
  intros v w W element resultvar errvar n env doc path target OE OR LE LR T.
  destruct v; try discriminate. injection W as <-.
  exists [].
  cbn [ToEtreeCode bind ret GenerateVariableName fst snd].
  split.
  - run T. rewrite LE. run T. rewrite LR. run T. reflexivity.
  - constructor.
Qed.

Lemma encodes_error name typ : encodes (errorParam name typ).
Proof.
  intros v w W element resultvar errvar n env doc path target OE OR LE LR T.
  destruct v; try discriminate. injection W as <-.
  set (k := length (Children target)).
  exists [ (name_of ["member"] (7 + n), VElement (path ++ [k; 0; 0; 1]));
           (name_of ["member"] (6 + n), VElement (path ++ [k; 0; 0; 0]));
           (name_of ["struct"] (2 + n), VElement (path ++ [k; 0; 0]));
           (name_of ["code"] (4 + n),
            VInt (match code with Some c => c | None => 500%Z end));
           (name_of ["fault"] (5 + n), VElement (path ++ [k])) ]%list.
  cbn [ToEtreeCode bind ret GenerateVariableName fst snd].
  split.
  - run T. rewrite LE. run T. rewrite LR.
    destruct code as [c|]; run T; rewrite ?leave_two; run T;
      rewrite LR; run T; reflexivity.
  - repeat constructor; apply allocated_name; lia.
Qed.

(** The loop that the list fragment runs: one [value] element per item. *)
Lemma slice_loop (object : Param) (Temp TempItem TempValueVar errvar : string)
  (i1 i2 i3 : nat) (p1 p2 p3 : list string) :
  encodes object ->
  Temp = name_of p1 i1 -> TempItem = name_of p2 i2 ->
  TempValueVar = name_of p3 i3 -> i1 < i2 < i3 ->
  forall items ws,
    wire_values object items = Some ws ->
    forall env doc tpath target,
      lookup Temp env = Some (VElement tpath) ->
      subtree tpath doc = Some target ->
      exec_range TempItem
        ([ Space (line 3);
           Define TempValueVar (CreateElement (Ident Temp) "value");
           Space (line 3) ]
         ++ fst (ToEtreeCode object TempValueVar TempItem errvar i3)
         ++ [ Space (line 2) ])%list
        items env doc =
      Some (env, update tpath (add_children ws) doc).
Proof.
  intros IH -> -> -> Hi.
  induction items as [|item items IHitems];
    intros ws W env doc tpath target LT T.
  - injection W as <-. cbn [exec_range].
    now rewrite (add_children_nil _ _ _ T).
  - cbn [wire_values] in W. fold (wire_values object) in W.
    destruct (wire object item) as [w|] eqn:Ww; [|discriminate].
    destruct (wire_values object items) as [ws'|] eqn:Wws; [|discriminate].
    injection W as <-.
    cbn [exec_range]. run T. rewrite LT. run T.
    rewrite exec_app.
    match goal with
    | |- context [exec (fst (ToEtreeCode _ _ _ _ _)) ?e ?d] =>
        destruct (IH item w Ww (name_of p3 i3) (name_of p2 i2) errvar i3 e d
                    (tpath ++ [length (Children target)])%list
                    (Elem "value" EmptyString []))
          as (new & E & _)
    end.
    + names.
    + names.
    + now look.
    + now look.
    + now rewrite (subtree_graft_below _ _ _ _ _ T).
    + rewrite E. run T.
      match goal with
      | |- context [leave env ?inner] =>
          replace inner with
            ((new ++ [(name_of p3 i3,
                       VElement (tpath ++ [length (Children target)])%list);
                      (name_of p2 i2, item)]) ++ env)%list
            by now rewrite <- app_assoc
      end.
      rewrite leave_app.
      rewrite (IHitems ws' eq_refl env _ tpath _ LT
                 (subtree_graft _ _ _ _ T)).
      now rewrite add_children_graft.
Qed.

Lemma encodes_slice name typ object :
  encodes object -> encodes (sliceParam name typ object).
Proof.
  intros IH v w W element resultvar errvar n env doc path target
    OE OR LE LR T.
  destruct v; try discriminate.
  cbn [wire] in W. fold (wire_values object) in W.
  destruct (wire_values object items) as [ws|] eqn:Wws; [|discriminate].
  injection W as <-.
  exists [(name_of ["array_data"] (1 + n),
           VElement (path ++ [length (Children target); 0])%list)].
  cbn [ToEtreeCode]. unfold bind, ret, GenerateVariableName.
  pose proof (ToEtreeCode_counter object (name_of ["value"] (3 + n))
                (name_of ["item"] (2 + n)) errvar (3 + n)) as M.
  pose proof (slice_loop object (name_of ["array_data"] (1 + n))
                (name_of ["item"] (2 + n)) (name_of ["value"] (3 + n)) errvar
                (1 + n) (2 + n) (3 + n) _ _ _ IH eq_refl eq_refl eq_refl
                ltac:(lia) items ws Wws) as L.
  cbn [plus] in M, L.
  destruct (ToEtreeCode object _ _ _ _) as [encoded n1].
  cbn [fst snd] in *. split.
  - match goal with
    | |- context [ForRange ?x ?e ?body] => set (loop := ForRange x e body)
    end.
    run T. rewrite LE. run T. subst loop. rewrite exec_stmt_ForRange.
    cbn [eval]. look. rewrite LR. cbv beta iota.
    rewrite (L _ _ (path ++ [length (Children target); 0])%list
               (Elem "data" EmptyString [])).
    + run T. reflexivity.
    + now look.
    + now docs T.
  - repeat constructor. apply allocated_name. lia.
Qed.

(** The loop that the structure fragment runs: one [member] per child. *)
Lemma struct_loop (params : list Param) :
  Forall encodes params ->
  forall fields ms,
    wire_members fields params = Some ms ->
    forall StructVar resultvar errvar n env doc spath target,
      older n StructVar -> older n resultvar ->
      lookup StructVar env = Some (VElement spath) ->
      lookup resultvar env = Some (VStruct fields) ->
      subtree spath doc = Some target ->
      exists new,
        exec (fst (ToEtreeCode_range StructVar resultvar errvar params n))
          env doc =
          Some ((new ++ env)%list, update spath (add_children ms) doc) /\
        Forall
          (allocated n
             (snd (ToEtreeCode_range StructVar resultvar errvar params n)))
          (map fst new).
Proof.
  induction 1 as [|param rest IH _ IHrest];
    intros fields ms W StructVar resultvar errvar n env doc spath target
      OS OR LS LR T.
  - injection W as <-. exists []. split; [|constructor].
    cbn. now rewrite (add_children_nil _ _ _ T).
  - cbn [wire_members] in W. fold (wire_members fields) in W.
    destruct (lookup (Name param) fields) as [fv|] eqn:Lf; [|discriminate].
    destruct (wire param fv) as [w|] eqn:Ww; [|discriminate].
    destruct (wire_members fields rest) as [ms'|] eqn:Wms; [|discriminate].
    injection W as <-.
    cbn [ToEtreeCode_range]. unfold bind, ret, GenerateVariableName.
    fold (ToEtreeCode_range StructVar resultvar errvar).
    pose proof (ToEtreeCode_counter param (name_of ["value"] (2 + n))
                  (name_of ["struct_var"] (3 + n)) errvar (3 + n)) as M1.
    specialize (IH fv w Ww (name_of ["value"] (2 + n))
                  (name_of ["struct_var"] (3 + n)) errvar (3 + n)).
    cbn [plus] in M1, IH.
    destruct (ToEtreeCode param _ _ _ _) as [encoded n1].
    pose proof (ToEtreeCode_range_counter rest
                  ltac:(apply Forall_forall; intros; apply ToEtreeCode_counter)
                  StructVar resultvar errvar n1) as M2.
    specialize (IHrest fields ms' Wms StructVar resultvar errvar n1).
    destruct (ToEtreeCode_range _ _ _ rest n1) as [others n2].
    cbn [fst snd] in *.
    set (k := length (Children target)).
    set (env3 :=
           [ (name_of ["struct_var"] (S (S (S n))), fv);
             (name_of ["value"] (S (S n)), VElement (spath ++ [k; 1])%list);
             (name_of ["member"] (S n), VElement (spath ++ [k])%list) ]).
    destruct (IH (env3 ++ env)%list
                (graft doc spath
                   (Elem "member" EmptyString
                      [ Elem "name" (Name param) [];
                        Elem "value" EmptyString [] ]))
                (spath ++ [k; 1])%list (Elem "value" EmptyString []))
      as (new1 & E1 & A1).
    { names. } { names. }
    { subst env3. cbn [app]. now look. }
    { subst env3. cbn [app]. now look. }
    { subst k. now docs T. }
    destruct (IHrest ((new1 ++ env3) ++ env)%list
                (graft doc spath (member (Name param) w)) spath
                (add_child (member (Name param) w) target))
      as (new2 & E2 & A2).
    { eapply older_le; [|eassumption]; lia. }
    { eapply older_le; [|eassumption]; lia. }
    { rewrite <- app_assoc, lookup_app.
      - subst env3. cbn [app]. now look.
      - eapply older_not_allocated; [|eassumption].
        eapply older_le; [|eassumption]. lia. }
    { rewrite <- app_assoc, lookup_app.
      - subst env3. cbn [app]. now look.
      - eapply older_not_allocated; [|eassumption].
        eapply older_le; [|eassumption]. lia. }
    { now apply subtree_graft. }
    exists (new2 ++ new1 ++ env3)%list. split.
    + run T. rewrite LS. run T. rewrite LR. cbv beta iota. rewrite Lf.
      cbv beta iota. rewrite (exec_app encoded).
      subst k env3. cbn [app] in E1. rewrite E1. cbv beta iota.
      run T.
      unfold member in E2 |- *. rewrite <- !app_assoc in E2. cbn [app] in E2.
      rewrite E2. rewrite add_children_graft.
      rewrite <- !app_assoc. reflexivity.
    + rewrite !map_app, !Forall_app. repeat split.
      * eapply Forall_impl; [|exact A2].
        intros x. apply allocated_le; lia.
      * eapply Forall_impl; [|exact A1].
        intros x. apply allocated_le; lia.
      * subst env3. repeat constructor; apply allocated_name; lia.
Qed.

Lemma encodes_struct name typ params :
  Forall encodes params -> encodes (structParam name typ params).
Proof.
  intros IH v w W element resultvar errvar n env doc path target
    OE OR LE LR T.
  destruct v; try discriminate.
  cbn [wire] in W. fold (wire_members fields) in W.
  destruct (wire_members fields params) as [ms|] eqn:Wms; [|discriminate].
  injection W as <-.
  rewrite ToEtreeCode_struct. unfold bind, ret, GenerateVariableName.
  pose proof (ToEtreeCode_range_counter params
                ltac:(apply Forall_forall; intros; apply ToEtreeCode_counter)
                (name_of ["struct"] (S n)) resultvar errvar (S n)) as M.
  destruct (struct_loop params IH fields ms Wms (name_of ["struct"] (S n))
              resultvar errvar (S n)
              ((name_of ["struct"] (S n),
                VElement (path ++ [length (Children target)])%list) :: env)
              (graft doc path (Elem "struct" EmptyString []))
              (path ++ [length (Children target)])%list
              (Elem "struct" EmptyString []))
    as (new & E & A).
  { names. }
  { eapply older_le; [|eassumption]; lia. }
  { now look. }
  { now look. }
  { now docs T. }
  destruct (ToEtreeCode_range _ _ _ params _) as [members n1].
  cbn [fst snd] in *.
  exists (new ++ [(name_of ["struct"] (S n),
                   VElement (path ++ [length (Children target)])%list)])%list.
  split.
  - run T. rewrite LE. run T. rewrite exec_app, E. run T.
    rewrite <- app_assoc. reflexivity.
  - rewrite map_app, Forall_app. split.
    + eapply Forall_impl; [|exact A]. intros x. apply allocated_le; lia.
    + repeat constructor. apply allocated_name. lia.
Qed.

(** Every encode fragment, run on a value of its shape, appends the wire
    form of the value to the target element. *)
Lemma encodes_all (p : Param) : encodes p.
Proof.
  induction p using Param_nested_ind.
  - apply encodes_bool.
  - apply encodes_int.
  - now apply encodes_struct.
  - now apply encodes_slice.
  - apply encodes_error.
  - apply encodes_string.
Qed.

End Encoding.

(** ** The numbered allocator *)

Lemma has_underscore_app (a b : string) :
  has_underscore (a ++ b) = has_underscore a || has_underscore b.
Proof.
  induction a as [|c a IH]; simpl; [reflexivity|].
  now rewrite IH, orb_assoc.
Qed.

Lemma decimal_digits (d : Decimal.uint) :
  has_underscore (NilEmpty.string_of_uint d) = false.
Proof. induction d; simpl; auto. Qed.

Lemma decimal_injective (n m : nat) : decimal n = decimal m -> n = m.
Proof.
  unfold decimal. intros E. apply DecimalNat.Unsigned.to_uint_inj.
  apply (f_equal NilEmpty.uint_of_string) in E.
  rewrite !NilEmpty.usu in E. congruence.
Qed.

(** Two texts that end in an underscore and a number are equal only if the
    numbers are. *)
Lemma numbered_suffix (a b d e : string) :
  has_underscore d = false -> has_underscore e = false ->
  a ++ "_" ++ d = b ++ "_" ++ e -> d = e.
Proof.
  intros Hd He. revert b.
  induction a as [|c a IH]; intros [|c' b] E; simpl in E.
  - congruence.
  - injection E as <- E. rewrite E, has_underscore_app in Hd.
    simpl in Hd. now rewrite orb_true_r in Hd.
  - injection E as -> E. rewrite <- E, has_underscore_app in He.
    simpl in He. now rewrite orb_true_r in He.
  - injection E as _ E. now apply IH with (b := b).
Qed.

Lemma numbered_injective : @injective_names numbered.
Proof.
  intros a b i j E. unfold name_of, numbered in E.
  apply decimal_injective.
  eapply numbered_suffix; [| |exact E]; apply decimal_digits.
Qed.

Lemma numbered_older (n : nat) (x : string) :
  has_underscore x = false -> @older numbered n x.
Proof.
  intros H prefix m _ E. rewrite <- E in H.
  unfold name_of, numbered in H. rewrite has_underscore_app in H.
  simpl in H. now rewrite orb_true_r in H.
Qed.

(** ** The resolver *)

Lemma fieldParams_children (fs : list (string * GoType)) :
  forall acc params,
    fieldParams fs acc = inl params ->
    exists children,
      params = (acc ++ children)%list /\
      Forall2 (fun field child =>
                 getParam (NewVar (fst field) (snd field)) = Resolved child)
        fs children.
Proof.
  induction fs as [|[fname ftype] fs IH]; intros acc params H; simpl in H.
  - injection H as <-. exists []. split; [now rewrite app_nil_r | constructor].
  - destruct (getParamOf fname ftype) as [child|] eqn:G; [|discriminate].
    destruct (IH _ _ H) as (children & -> & F).
    exists (child :: children). split.
    + now rewrite <- app_assoc.
    + constructor; [exact G | exact F].
Qed.

(** A signed integer kind resolves to an integer leaf whose type label is
    the kind's own name: [int] followed by the width, if any. *)
Lemma signed_integer_label (name : string) (kind : BasicKind) :
  In kind [Int; Int8; Int16; Int32; Int64] ->
  exists bitSize,
    getParam (NewVar name (Basic kind)) =
      Resolved (intParam bitSize name EmptyString false) /\
    In bitSize [0; 8; 16; 32; 64]%Z /\
    Type_ (intParam bitSize name EmptyString false) =
      "int" ++ (if (bitSize =? 0)%Z then EmptyString else Itoa bitSize).
Proof.
  intros H. simpl in H.
  repeat (destruct H as [<-|H]; [eexists; split; [reflexivity|];
                                 split; [simpl; tauto | reflexivity]|]).
  contradiction.
Qed.

(** [intParam.Type] itself knows the unsigned labels. *)
Lemma unsigned_label_of_intParam (name typ : string) :
  map (fun bitSize => Type_ (intParam bitSize name typ true))
    [0; 8; 16; 32; 64]%Z =
  ["uint"; "uint8"; "uint16"; "uint32"; "uint64"].
Proof. reflexivity. Qed.

(** C4 (the code departs from the claim on unsigned shapes): [getParam] has
    no case for the unsigned kinds, so resolving an unsigned integer of any
    width ends in the "not supported param" exit instead of an integer leaf
    labelled [uint], [uint8], ... *)
Theorem unsigned_integer_is_not_resolved :
  Forall (fun kind => forall name,
            getParam (NewVar name (Basic kind)) =
            Exit "not supported param: %v" [BasicName kind])
    [Uint; Uint8; Uint16; Uint32; Uint64].
Proof. repeat constructor. Qed.

(** C8: resolving a raw fixed-size array, or a composite or opaque shape
    other than the failure marker, ends in a fatal exit; no node is built
    or returned. *)
Theorem unsupported_shape_is_fatal (variable : Var) :
  unsupported_shape (Var_Type variable) = true ->
  (exists format args, getParam variable = Exit format args) /\
  (forall p, getParam variable <> Resolved p).
Proof.
  destruct variable as [name x]. unfold getParam. simpl.
  destruct x; simpl; try discriminate; intros H;
    try (split; [eauto | discriminate]).
  destruct (qualified =? "error"); [discriminate|].
  split; [eauto | discriminate].
Qed.

Lemma unsupported_shape_is_fatal_witness :
  unsupported_shape (Var_Type (NewVar "grid" (Array 3 (Basic Int)))) = true /\
  getParam (NewVar "grid" (Array 3 (Basic Int))) = Exit "array" [] /\
  (forall p, getParam (NewVar "grid" (Array 3 (Basic Int))) <> Resolved p).
Proof.
  split; [reflexivity|]. split; [reflexivity|].
  apply (unsupported_shape_is_fatal (NewVar "grid" (Array 3 (Basic Int)))).
  reflexivity.
Defined.

(** C10: the node resolved for the failure marker is always named [err],
    whatever the variable is called; every other resolved node keeps the
    name of its variable. *)
Theorem failure_node_is_named_err (variable : Var) (p : Param) :
  getParam variable = Resolved p ->
  Name p = if is_failure_marker (Var_Type variable) then "err"
           else Var_Name variable.
Proof.
  destruct variable as [name x]. unfold getParam. simpl.
  destruct x; simpl; try discriminate.
  - destruct kind; simpl; try discriminate; intros H; injection H as <-;
      reflexivity.
  - change (getParamOf name (Struct fields) = Resolved p -> Name p = name).
    rewrite getParamOf_Struct.
    destruct (fieldParams fields []) as [params|[format args]];
      [|discriminate].
    intros H. injection H as <-. reflexivity.
  - destruct (getParamOf name x); [|discriminate].
    intros H. injection H as <-. reflexivity.
  - destruct (qualified =? "error"); [|discriminate].
    intros H. injection H as <-. reflexivity.
Qed.

Lemma failure_node_is_named_err_witness :
  getParam (NewVar "failure" (Named "error")) =
    Resolved (errorParam "err" "error") /\
  Name (errorParam "err" "error") = "err" /\
  Name (intParam 32 "count" EmptyString false) = "count".
Proof.
  split; [reflexivity|]. split.
  - apply (failure_node_is_named_err (NewVar "failure" (Named "error"))).
    reflexivity.
  - apply (failure_node_is_named_err (NewVar "count" (Basic Int32))).
    reflexivity.
Defined.

(** ** Decode fragments *)

(** C9: the decode fragment of a failure node is empty for every source,
    result and error variable, and takes no name from the allocator. *)
Theorem failure_decode_is_empty {allocator : NameAllocator}
  (name typ element resultvar errvar : string) (n : nat) :
  FromEtree (errorParam name typ) element resultvar errvar n =
  (EmptyString, n).
Proof. reflexivity. Qed.

(** Whatever the element codec, the list fragment opens by declaring the
    result as [[]] followed by the list's own type label, which already
    starts with [[]]. *)
Lemma slice_decode_declaration {allocator : NameAllocator}
  (name typ : string) (object : Param) (element resultvar errvar : string)
  (n : nat) :
  exists rest,
    fst (FromEtree (sliceParam name typ object) element resultvar errvar n) =
    line 1 ++ "// This is slice implementation of " ++ resultvar ++
    line 1 ++ resultvar ++ " := " ++ "[]" ++
    Type_ (sliceParam name typ object) ++ "{}" ++ rest.
Proof.
  cbn [FromEtree]. unfold bind, ret, GenerateVariableName.
  destruct (FromEtree object _ _ _ _) as [decoded n1]. cbn [fst].
  eexists. cbn [line tabs newline tab Type_]. norm_text. reflexivity.
Qed.

(** C1 (the code departs from the claim): for the shape [[]int] the node's
    type label is [[]int], and the decode fragment declares the result as
    [[][]int{}], the label behind one more [[]], not as [[]int{}]. *)
Theorem slice_decode_declares_list_of_lists :
  let p := sliceParam "ids" "int" (intParam 0 "ids" EmptyString false) in
  let fragment := fst (FromEtree (allocator := numbered) p "doc" "ids" "err" 0) in
  getParam (NewVar "ids" (Slice (Basic Int))) = Resolved p /\
  Type_ p = "[]int" /\
  substringb "ids := [][]int{}" fragment = true /\
  substringb "ids := []int{}" fragment = false.
Proof. vm_compute. repeat split. Qed.

(** The structure fragment never reads the error variable it is given. *)
Lemma struct_decode_ignores_errvar {allocator : NameAllocator}
  (name typ : string) (params : list Param)
  (element resultvar errvar errvar' : string) (n : nat) :
  FromEtree (structParam name typ params) element resultvar errvar n =
  FromEtree (structParam name typ params) element resultvar errvar' n.
Proof. reflexivity. Qed.

(** The leaves do follow the convention: they assign the error variable
    they are given and leave with a bare [return]. *)
Lemma bool_decode_convention {allocator : NameAllocator}
  (name element resultvar errvar : string) (n : nat) :
  fst (FromEtree (boolParam name) element resultvar errvar n) =
  line 1 ++ "var " ++ resultvar ++ " bool" ++
  line 1 ++ "if " ++ resultvar ++ ", " ++ errvar ++
  " = xmlrpc.XPathValueGetBool(" ++ element ++ ", " ++ dq ++ name ++ dq ++
  "); " ++ errvar ++ " != nil {" ++
  line 2 ++ "return" ++ line 1 ++ "}" ++ line 1.
Proof. cbn. norm_text. reflexivity. Qed.

(** C3 (the code departs from the claim on structures): asked to report
    failures in [failure], the decode fragment of [struct{ok bool}] never
    mentions [failure]; it leaves with [return errors.New(...)] when a
    member lacks its name or value, and has the field decoded into the
    fixed name [err]. *)
Theorem struct_decode_breaks_the_convention :
  let p := structParam "opts" "struct{ok bool}" [boolParam "ok"] in
  let fragment :=
    fst (FromEtree (allocator := numbered) p "doc" "opts" "failure" 0) in
  getParam (NewVar "opts" (Struct [("ok", Basic Bool)])) = Resolved p /\
  substringb "failure" fragment = false /\
  substringb ("return errors.New(" ++ dq ++ "no name provided" ++ dq ++ ")")
    fragment = true /\
  substringb ", err = xmlrpc.XPathValueGetBool(" fragment = true.
Proof. vm_compute. repeat split. Qed.

(** The members that the encode fragment of a structure writes all carry
    the tag [member]: the path [struct/member] finds them, the path
    [struct/members] finds none. *)
Lemma members_query (fields : list (string * value)) (params : list Param)
  (ms : list Element) (tag text : string) :
  wire_members fields params = Some ms ->
  FindElements "struct/member" (Elem tag text [Elem "struct" EmptyString ms])
    = ms /\
  FindElements "struct/members" (Elem tag text [Elem "struct" EmptyString ms])
    = [].
Proof.
  intros W.
  assert (A : Forall (fun m => Tag m = "member") ms).
  { revert ms W. induction params as [|param rest IH]; intros ms W;
      cbn [wire_members] in W; fold (wire_members fields) in W.
    - injection W as <-. constructor.
    - destruct (lookup (Name param) fields); [|discriminate].
      destruct (wire param v); [|discriminate].
      destruct (wire_members fields rest); [|discriminate].
      injection W as <-. constructor; [reflexivity | now apply IH]. }
  unfold FindElements.
  change (segments EmptyString "struct/member") with ["struct"; "member"].
  change (segments EmptyString "struct/members") with ["struct"; "members"].
  cbn [select flat_map filter Children Tag String.eqb Ascii.eqb
       Bool.eqb app].
  rewrite !app_nil_r. clear W.
  induction A as [|m ms Hm _ IH]; [split; reflexivity|].
  destruct IH as [IH1 IH2].
  cbn [filter flat_map select]. rewrite Hm.
  change ("member" =? "member") with true.
  change ("member" =? "members") with false.
  cbv beta iota. split; [cbn [flat_map app]; now rewrite IH1 | exact IH2].
Qed.

(** C2 (the code departs from the claim): for the shape [struct{x int}]
    the encode fragment writes [struct] with one [member]; the decode
    fragment iterates [FindElements("struct/members")], and that path finds
    nothing in what the encode fragment wrote, while [struct/member] finds
    the member. *)
Theorem struct_decode_query_misses_members :
  let p := structParam "point" "struct{x int}"
             [intParam 0 "x" EmptyString false] in
  let decode :=
    fst (FromEtree (allocator := numbered) p "doc" "point" "err" 0) in
  let encode :=
    fst (ToEtreeCode (allocator := numbered) p "doc" "point" "err" 0) in
  let written :=
    Elem "value" EmptyString
      [ Elem "struct" EmptyString [ member "x" (Elem "int" "7" []) ] ] in
  getParam (NewVar "point" (Struct [("x", Basic Int)])) = Resolved p /\
  substringb ("FindElements(" ++ dq ++ "struct/members" ++ dq ++ ")") decode
    = true /\
  fst (ToEtree (allocator := numbered) p "doc" "point" "err" 0)
    = render encode /\
  option_map snd
    (exec encode
       [("doc", VElement []); ("point", VStruct [("x", VInt 7)])]
       (Elem "value" EmptyString [])) = Some written /\
  FindElements "struct/members" written = [] /\
  FindElements "struct/member" written = [ member "x" (Elem "int" "7" []) ].
Proof. vm_compute. repeat split. Qed.

(** ** Encode fragments *)

Lemma wire_members_children (fields : list (string * value))
  (params : list Param) :
  forall ms,
    wire_members fields params = Some ms ->
    Forall2 (fun child m =>
               exists fv content,
                 lookup (Name child) fields = Some fv /\
                 wire child fv = Some content /\
                 m = member (Name child) content)
      params ms.
Proof.
  induction params as [|param rest IH]; intros ms W;
    cbn [wire_members] in W; fold (wire_members fields) in W.
  - injection W as <-. constructor.
  - destruct (lookup (Name param) fields) as [fv|] eqn:L; [|discriminate].
    destruct (wire param fv) as [content|] eqn:Wc; [|discriminate].
    destruct (wire_members fields rest) as [ms'|]; [|discriminate].
    injection W as <-. constructor; [|now apply IH].
    now exists fv, content.
Qed.

(** The text of an encode fragment is the rendering of statements that,
    run on a value of the node's shape, append its wire form. *)
Lemma ToEtree_runs {allocator : NameAllocator} (fresh : injective_names)
  (p : Param) (v : value) (w : Element)
  (element resultvar errvar : string) (n : nat)
  (env : environment) (doc : Element) (path : list nat) (target : Element) :
  wire p v = Some w ->
  older n element -> older n resultvar ->
  lookup element env = Some (VElement path) ->
  lookup resultvar env = Some v ->
  subtree path doc = Some target ->
  exists code new,
    fst (ToEtree p element resultvar errvar n) = render code /\
    exec code env doc = Some ((new ++ env)%list, graft doc path w).
Proof.
  intros W OE OR LE LR T.
  destruct (encodes_all fresh p v w W element resultvar errvar n env doc
              path target OE OR LE LR T) as (new & E & _).
  exists (fst (ToEtreeCode p element resultvar errvar n)), new.
  split; [now rewrite ToEtree_render | exact E].
Qed.

(** C7: the encode fragment of a boolean, run on the value [b], appends one
    [boolean] element whose text is ["1"] when [b] is true and ["0"] when it
    is false. *)
Theorem bool_encode_text {allocator : NameAllocator}
  (fresh : injective_names) (name : string) (b : bool)
  (element resultvar errvar : string) (n : nat)
  (env : environment) (doc : Element) (path : list nat) (target : Element) :
  older n element -> older n resultvar ->
  lookup element env = Some (VElement path) ->
  lookup resultvar env = Some (VBool b) ->
  subtree path doc = Some target ->
  exists code new,
    fst (ToEtree (boolParam name) element resultvar errvar n) = render code /\
    exec code env doc =
    Some ((new ++ env)%list,
          graft doc path (Elem "boolean" (if b then "1" else "0") [])).
Proof.
  intros OE OR LE LR T.
  exact (ToEtree_runs fresh (boolParam name) (VBool b) _ element resultvar
           errvar n env doc path target eq_refl OE OR LE LR T).
Qed.

Lemma bool_encode_text_witness :
  exists code new,
    fst (ToEtree (allocator := numbered) (boolParam "flag")
           "doc" "flag" "err" 0) = render code /\
    exec code [("doc", VElement []); ("flag", VBool true)]
      (Elem "value" EmptyString []) =
    Some ((new ++ [("doc", VElement []); ("flag", VBool true)])%list,
          Elem "value" EmptyString [Elem "boolean" "1" []]).
Proof.
  apply (bool_encode_text (allocator := numbered) numbered_injective
           "flag" true "doc" "flag" "err" 0
           [("doc", VElement []); ("flag", VBool true)]
           (Elem "value" EmptyString []) [] (Elem "value" EmptyString []));
    try reflexivity; apply numbered_older; reflexivity.
Defined.

(** C5: the encode fragment of a failure value appends one [fault] element
    whose [struct] holds exactly two members, [faultCode] and then
    [faultString]; the code is 500 unless the value exposes a code, and the
    string is the value's message. *)
Theorem failure_encode_fault {allocator : NameAllocator}
  (fresh : injective_names) (name typ message : string) (code : option Z)
  (element resultvar errvar : string) (n : nat)
  (env : environment) (doc : Element) (path : list nat) (target : Element) :
  older n element -> older n resultvar ->
  lookup element env = Some (VElement path) ->
  lookup resultvar env = Some (VError message code) ->
  subtree path doc = Some target ->
  exists stmts new,
    fst (ToEtree (errorParam name typ) element resultvar errvar n)
      = render stmts /\
    exec stmts env doc =
    Some ((new ++ env)%list,
          graft doc path
            (Elem "fault" EmptyString
               [ Elem "value" EmptyString
                   [ Elem "struct" EmptyString
                       [ Elem "member" EmptyString
                           [ Elem "name" "faultCode" [];
                             Elem "value" EmptyString
                               [ Elem "int"
                                   (Itoa (match code with
                                          | Some c => c
                                          | None => 500%Z
                                          end)) [] ] ];
                         Elem "member" EmptyString
                           [ Elem "name" "faultString" [];
                             Elem "value" EmptyString
                               [ Elem "string" message [] ] ] ] ] ])).
Proof.
  intros OE OR LE LR T.
  exact (ToEtree_runs fresh (errorParam name typ) (VError message code) _
           element resultvar errvar n env doc path target eq_refl
           OE OR LE LR T).
Qed.

Lemma failure_encode_fault_witness :
  exists stmts new,
    fst (ToEtree (allocator := numbered) (errorParam "err" "error")
           "doc" "failure" "err" 0) = render stmts /\
    exec stmts [("doc", VElement []); ("failure", VError "not found" None)]
      (Elem "methodResponse" EmptyString []) =
    Some ((new ++ [("doc", VElement []);
                   ("failure", VError "not found" None)])%list,
          Elem "methodResponse" EmptyString
            [ Elem "fault" EmptyString
                [ Elem "value" EmptyString
                    [ Elem "struct" EmptyString
                        [ Elem "member" EmptyString
                            [ Elem "name" "faultCode" [];
                              Elem "value" EmptyString
                                [ Elem "int" "500" [] ] ];
                          Elem "member" EmptyString
                            [ Elem "name" "faultString" [];
                              Elem "value" EmptyString
                                [ Elem "string" "not found" [] ] ] ] ] ] ]).
Proof.
  apply (failure_encode_fault (allocator := numbered) numbered_injective
           "err" "error" "not found" None "doc" "failure" "err" 0
           [("doc", VElement []); ("failure", VError "not found" None)]
           (Elem "methodResponse" EmptyString []) []
           (Elem "methodResponse" EmptyString []));
    try reflexivity; apply numbered_older; reflexivity.
Defined.

(** C6: the node resolved for a structure has one child per declared
    field, in declaration order, and its encode fragment appends one
    [struct] element with one [member] per child in that order, each made of
    a [name] element with the child's own name followed by a [value]
    element holding the encoded field. *)
Theorem struct_members_follow_fields {allocator : NameAllocator}
  (fresh : injective_names) (name : string)
  (fields : list (string * GoType)) (p : Param) :
  getParam (NewVar name (Struct fields)) = Resolved p ->
  exists params,
    p = structParam name (TypeString (Struct fields)) params /\
    Forall2 (fun field child =>
               getParam (NewVar (fst field) (snd field)) = Resolved child)
      fields params /\
    forall values ms element resultvar errvar n env doc path target,
      wire_members values params = Some ms ->
      older n element -> older n resultvar ->
      lookup element env = Some (VElement path) ->
      lookup resultvar env = Some (VStruct values) ->
      subtree path doc = Some target ->
      Forall2 (fun child m =>
                 exists fv content,
                   lookup (Name child) values = Some fv /\
                   wire child fv = Some content /\
                   m = Elem "member" EmptyString
                         [ Elem "name" (Name child) [];
                           Elem "value" EmptyString [content] ])
        params ms /\
      exists code new,
        fst (ToEtree p element resultvar errvar n) = render code /\
        exec code env doc =
        Some ((new ++ env)%list,
              graft doc path (Elem "struct" EmptyString ms)).
Proof.
  unfold getParam. cbn [Var_Name Var_Type]. rewrite getParamOf_Struct.
  destruct (fieldParams fields []) as [params|[format args]] eqn:F;
    [|discriminate].
  intros H. injection H as <-.
  destruct (fieldParams_children _ _ _ F) as (children & E & F2).
  cbn [app] in E. subst children.
  exists params. split; [reflexivity|]. split; [exact F2|].
  intros values ms element resultvar errvar n env doc path target
    W OE OR LE LR T.
  split; [now apply wire_members_children|].
  apply ToEtree_runs with (v := VStruct values) (target := target); auto.
  cbn [wire]. fold (wire_members values). now rewrite W.
Qed.

Lemma struct_members_follow_fields_witness :
  exists code new,
    fst (ToEtree (allocator := numbered)
           (structParam "point" "struct{x int; label string}"
              [ intParam 0 "x" EmptyString false; stringParam "label" ])
           "doc" "point" "err" 0) = render code /\
    exec code
      [("doc", VElement []);
       ("point", VStruct [("x", VInt 7); ("label", VString "top")])]
      (Elem "value" EmptyString []) =
    Some ((new ++
           [("doc", VElement []);
            ("point", VStruct [("x", VInt 7); ("label", VString "top")])])%list,
          Elem "value" EmptyString
            [ Elem "struct" EmptyString
                [ member "x" (Elem "int" "7" []);
                  member "label" (Elem "string" "top" []) ] ]).
Proof.
  destruct (struct_members_follow_fields (allocator := numbered)
              numbered_injective "point"
              [("x", Basic Int); ("label", Basic String_)]
              (structParam "point" "struct{x int; label string}"
                 [ intParam 0 "x" EmptyString false; stringParam "label" ])
              eq_refl)
    as (params & E & _ & H).
  injection E as <-.
  apply (H [("x", VInt 7); ("label", VString "top")]
           [ member "x" (Elem "int" "7" []);
             member "label" (Elem "string" "top" []) ]
           "doc" "point" "err" 0
           [("doc", VElement []);
            ("point", VStruct [("x", VInt 7); ("label", VString "top")])]
           (Elem "value" EmptyString []) [] (Elem "value" EmptyString []));
    try reflexivity; apply numbered_older; reflexivity.
Defined.

(** * More of the resolver *)

(** Induction on a shape that reaches the fields of a structure. *)
Section GoTypeInduction.

Variable P : GoType -> Prop.
Hypothesis P_Basic : forall kind, P (Basic kind).
Hypothesis P_Struct : forall fields,
  Forall (fun field => P (snd field)) fields -> P (Struct fields).
Hypothesis P_Array : forall len elem, P elem -> P (Array len elem).
Hypothesis P_Slice : forall elem, P elem -> P (Slice elem).
Hypothesis P_Named : forall qualified, P (Named qualified).
Hypothesis P_Pointer : forall elem, P elem -> P (Pointer elem).
Hypothesis P_Map : forall key elem, P key -> P elem -> P (Map key elem).
Hypothesis P_Chan : forall elem, P elem -> P (Chan elem).
Hypothesis P_Signature : forall text, P (Signature text).
Hypothesis P_Interface : forall text, P (Interface text).

Fixpoint GoType_nested_ind (x : GoType) : P x :=
  match x with
  | Basic kind => P_Basic kind
  | Struct fields =>
      P_Struct fields
        ((fix all (fs : list (string * GoType))
            : Forall (fun field => P (snd field)) fs :=
            match fs with
            | [] => Forall_nil _
            | f :: rest =>
                Forall_cons f (GoType_nested_ind (snd f)) (all rest)
            end) fields)
  | Array len elem => P_Array len elem (GoType_nested_ind elem)
  | Slice elem => P_Slice elem (GoType_nested_ind elem)
  | Named qualified => P_Named qualified
  | Pointer elem => P_Pointer elem (GoType_nested_ind elem)
  | Map key elem =>
      P_Map key elem (GoType_nested_ind key) (GoType_nested_ind elem)
  | Chan elem => P_Chan elem (GoType_nested_ind elem)
  | Signature text => P_Signature text
  | Interface text => P_Interface text
  end.

End GoTypeInduction.

Lemma getParamOf_label (name : string) (x : GoType) (p : Param) :
  getParamOf name x = Resolved p -> Type_ p = TypeString x.
Proof.
  destruct x; try discriminate.
  - destruct kind; try discriminate; intros H; injection H as <-;
      reflexivity.
  - rewrite getParamOf_Struct.
    destruct (fieldParams fields []) as [params|[format args]];
      [|discriminate].
    intros H. injection H as <-. reflexivity.
  - cbn [getParamOf]. destruct (getParamOf name x); [|discriminate].
    intros H. injection H as <-. reflexivity.
  - cbn [getParamOf TypeString].
    destruct (String.eqb_spec qualified "error") as [->|]; [|discriminate].
    intros H. injection H as <-. reflexivity.
Qed.



Lemma fieldParams_acc (fs : list (string * GoType)) :
  forall acc,
    fieldParams fs acc =
    match fieldParams fs [] with
    | inl params => inl (acc ++ params)%list
    | inr e => inr e
    end.
Proof.
  induction fs as [|[fname ftype] fs IH]; intros acc; simpl.
  - now rewrite app_nil_r.
  - destruct (getParamOf fname ftype) as [child|format args];
      [|reflexivity].
    rewrite (IH (acc ++ [child])%list), (IH [child]).
    destruct (fieldParams fs []) as [params|e]; [|reflexivity].
    now rewrite <- app_assoc.
Qed.

Lemma fieldParams_cons (fname : string) (ftype : GoType)
  (fs : list (string * GoType)) :
  fieldParams ((fname, ftype) :: fs) [] =
  match getParamOf fname ftype with
  | Resolved child =>
      match fieldParams fs [] with
      | inl params => inl (child :: params)
      | inr e => inr e
      end
  | Exit format args => inr (format, args)
  end.
Proof.
  simpl. destruct (getParamOf fname ftype) as [child|format args];
    [|reflexivity].
  now rewrite fieldParams_acc.
Qed.

Lemma getParamOf_supported (x : GoType) :
  forall name, (exists p, getParamOf name x = Resolved p) <-> supported x = true.
Proof.
  induction x using GoType_nested_ind; intros name;
    try (split; [intros [p H]; discriminate | discriminate]).
  - destruct kind; simpl; split; intros H; try discriminate; eauto;
      destruct H as [p H]; discriminate.
  - rewrite getParamOf_Struct.
    change (supported (Struct fields)) with (all_supported fields).
    assert (E : (exists params, fieldParams fields [] = inl params) <->
                all_supported fields = true).
    { induction H as [|[fname ftype] fs Hf _ IH].
      - split; [reflexivity | now exists []].
      - rewrite fieldParams_cons. cbn [all_supported snd] in *.
        fold all_supported. rewrite andb_true_iff, <- (Hf fname), <- IH.
        destruct (getParamOf fname ftype) as [child|format args].
        + destruct (fieldParams fs []) as [params|e].
          * split; [intros _; split; eauto | intros _; eauto].
          * split; [intros [params E]; discriminate
                   | intros [_ [params E]]; discriminate].
        + split; [intros [params E]; discriminate
                 | intros [[p E] _]; discriminate]. }
    rewrite <- E.
    destruct (fieldParams fields []) as [params|[format args]].
    + split; eauto.
    + split; [intros [p Hp]; discriminate | intros [p Hp]; discriminate].
  - cbn [getParamOf supported]. rewrite <- (IHx name).
    destruct (getParamOf name x) as [child|format args].
    + split; eauto.
    + split; intros [p Hp]; discriminate.
  - cbn [getParamOf supported TypeString].
    destruct (qualified =? "error").
    + split; eauto.
    + split; [intros [p Hp]; discriminate | discriminate].
Qed.

(** X2: [getParam] returns a node exactly for the supported shapes; every
    other shape, at any depth of nesting, ends the run in [Exit]. *)
Theorem resolves_iff_supported (variable : Var) :
  (exists p, getParam variable = Resolved p) <->
  supported (Var_Type variable) = true.
Proof. destruct variable as [name x]. apply getParamOf_supported. Qed.

(** X3: a structure whose earlier fields all resolve ends in the exit of
    its first unsupported field, whatever comes after that field. *)
Theorem struct_exit_is_first_unsupported_field (name fname : string)
  (ftype : GoType) (before after : list (string * GoType))
  (format : string) (args : list string) :
  all_supported before = true ->
  getParam (NewVar fname ftype) = Exit format args ->
  getParam (NewVar name (Struct (before ++ (fname, ftype) :: after))) =
  Exit format args.
Proof.
  unfold getParam. cbn [Var_Name Var_Type]. intros B E.
  rewrite getParamOf_Struct.
  assert (F : fieldParams (before ++ (fname, ftype) :: after) [] =
              inr (format, args)).
  { induction before as [|[bname btype] before IH].
    - cbn [app]. now rewrite fieldParams_cons, E.
    - cbn [all_supported] in B. fold all_supported in B.
      apply andb_true_iff in B as [Bh Bt].
      cbn [app]. rewrite fieldParams_cons.
      destruct (proj2 (getParamOf_supported btype bname) Bh) as [child ->].
      now rewrite (IH Bt). }
  now rewrite F.
Qed.

Lemma struct_exit_is_first_unsupported_field_witness :
  getParam
    (NewVar "job"
       (Struct [("id", Basic Int); ("weight", Basic Float64);
                ("grid", Array 3 (Basic Int))])) =
  Exit "not supported param: %v" ["float64"].
Proof.
  apply (struct_exit_is_first_unsupported_field "job" "weight"
           (Basic Float64) [("id", Basic Int)]
           [("grid", Array 3 (Basic Int))]); reflexivity.
Defined.

Lemma getParamOf_depth (x : GoType) :
  forall name p, getParamOf name x = Resolved p ->
                 node_depth p = shape_depth x.
Proof.
  induction x using GoType_nested_ind; intros name p; try discriminate.
  - destruct kind; try discriminate; intros E; injection E as <-;
      reflexivity.
  - rewrite getParamOf_Struct.
    change (shape_depth (Struct fields)) with (S (deepest_field fields)).
    assert (E : forall params, fieldParams fields [] = inl params ->
                               deepest_child params = deepest_field fields).
    { induction H as [|[fname ftype] fs Hf _ IH]; intros params.
      - intros E. injection E as <-. reflexivity.
      - rewrite fieldParams_cons.
        destruct (getParamOf fname ftype) as [child|format args] eqn:G;
          [|discriminate].
        destruct (fieldParams fs []) as [rest|e]; [|discriminate].
        intros E. injection E as <-.
        cbn [deepest_child deepest_field snd] in *.
        fold deepest_child. fold deepest_field.
        now rewrite (Hf _ _ G), (IH rest eq_refl). }
    destruct (fieldParams fields []) as [params|[format args]];
      [|discriminate].
    intros R. injection R as <-.
    change (S (deepest_child params) = S (deepest_field fields)).
    f_equal. exact (E params eq_refl).
  - cbn [getParamOf].
    destruct (getParamOf name x) as [child|format args] eqn:G;
      [|discriminate].
    intros E. injection E as <-. cbn [node_depth shape_depth newSliceParam].
    now rewrite (IHx _ _ G).
  - cbn [getParamOf]. destruct (TypeString (Named qualified) =? "error");
      [|discriminate].
    intros E. injection E as <-. reflexivity.
Qed.

(** X4: the node tree resolved for a shape is exactly as deep as the shape
    is nested. *)
Theorem node_depth_is_shape_depth (variable : Var) (p : Param) :
  getParam variable = Resolved p ->
  node_depth p = shape_depth (Var_Type variable).
Proof. destruct variable as [name x]. apply getParamOf_depth. Qed.

Lemma node_depth_is_shape_depth_witness :
  node_depth
    (structParam "job" "struct{tags []string}"
       [sliceParam "tags" "string" (stringParam "tags")]) = 2.
Proof.
  apply (node_depth_is_shape_depth
           (NewVar "job" (Struct [("tags", Slice (Basic String_))]))).
  reflexivity.
Defined.

Lemma getParamOf_name (name : string) (x : GoType) (p : Param) :
  getParamOf name x = Resolved p ->
  Name p = if is_failure_marker x then "err" else name.
Proof.
  destruct x; try discriminate.
  - destruct kind; try discriminate; intros H; injection H as <-;
      reflexivity.
  - rewrite getParamOf_Struct.
    destruct (fieldParams fields []) as [params|[format args]];
      [|discriminate].
    intros H. injection H as <-. reflexivity.
  - cbn [getParamOf]. destruct (getParamOf name x); [|discriminate].
    intros H. injection H as <-. reflexivity.
  - cbn [getParamOf TypeString is_failure_marker].
    destruct (qualified =? "error"); [|discriminate].
    intros H. injection H as <-. reflexivity.
Qed.


(** X6: the children of a resolved structure carry, field by field in
    declaration order, the field's name, except that a failure-typed field
    gives a child named [err]. *)
Theorem struct_child_names (name : string)
  (fields : list (string * GoType)) (typ : string) (params : list Param) :
  getParam (NewVar name (Struct fields)) = Resolved (structParam name typ params) ->
  map Name params =
  map (fun field => if is_failure_marker (snd field) then "err"
                    else fst field) fields.
Proof.
  unfold getParam. cbn [Var_Name Var_Type]. rewrite getParamOf_Struct.
  destruct (fieldParams fields []) as [children|[format args]] eqn:F;
    [|discriminate].
  intros H. injection H as _ <-.
  revert children F. induction fields as [|[fname ftype] fs IH];
    intros children.
  - intros F. injection F as <-. reflexivity.
  - rewrite fieldParams_cons.
    destruct (getParamOf fname ftype) as [child|format args] eqn:G;
      [|discriminate].
    destruct (fieldParams fs []) as [rest|e]; [|discriminate].
    intros F. injection F as <-. cbn [map fst snd].
    now rewrite (getParamOf_name _ _ _ G), (IH rest eq_refl).
Qed.

Lemma struct_child_names_witness :
  map Name [stringParam "id"; errorParam "err" "error"] = ["id"; "err"].
Proof.
  apply (struct_child_names "reply"
           [("id", Basic String_); ("failure", Named "error")]
           "struct{id string; failure error}").
  reflexivity.
Defined.

(** * More of the encode fragments *)

Lemma nth_error_update_nth_other {A : Type} (f : A -> A) (l : list A)
  (i j : nat) :
  i <> j -> nth_error (update_nth i f l) j = nth_error l j.
Proof.
  revert i j; induction l as [|x l IH]; intros [|i] [|j] H; simpl; auto.
  congruence.
Qed.

Lemma subtree_update_diverges (path : list nat) (f : Element -> Element) :
  forall q doc,
    diverges path q = true ->
    subtree q (update path f doc) = subtree q doc.
Proof.
  induction path as [|a path IH]; intros [|b q] doc H; try discriminate.
  cbn [diverges] in H. cbn [update subtree Children].
  destruct (Nat.eqb_spec a b) as [<-|N].
  - rewrite nth_error_update_nth.
    destruct (nth_error (Children doc) a) as [child|]; [|reflexivity].
    cbn [option_map]. now apply IH.
  - now rewrite nth_error_update_nth_other.
Qed.





(** X9: the encode fragment of a string, run on the value [s], appends one
    [string] element whose text is [s] unchanged. *)
Theorem string_encode_text {allocator : NameAllocator}
  (fresh : injective_names) (name s : string)
  (element resultvar errvar : string) (n : nat)
  (env : environment) (doc : Element) (path : list nat) (target : Element) :
  older n element -> older n resultvar ->
  lookup element env = Some (VElement path) ->
  lookup resultvar env = Some (VString s) ->
  subtree path doc = Some target ->
  exists code new,
    fst (ToEtree (stringParam name) element resultvar errvar n)
      = render code /\
    exec code env doc =
    Some ((new ++ env)%list, graft doc path (Elem "string" s [])).
Proof.
  intros OE OR LE LR T.
  exact (ToEtree_runs fresh (stringParam name) (VString s) _
           element resultvar errvar n env doc path target eq_refl
           OE OR LE LR T).
Qed.

Lemma string_encode_text_witness :
  exists code new,
    fst (ToEtree (allocator := numbered) (stringParam "title")
           "doc" "title" "err" 0) = render code /\
    exec code [("doc", VElement []); ("title", VString "a <b>")]
      (Elem "value" EmptyString []) =
    Some ((new ++ [("doc", VElement []); ("title", VString "a <b>")])%list,
          Elem "value" EmptyString [Elem "string" "a <b>" []]).
Proof.
  apply (string_encode_text (allocator := numbered) numbered_injective
           "title" "a <b>" "doc" "title" "err" 0
           [("doc", VElement []); ("title", VString "a <b>")]
           (Elem "value" EmptyString []) [] (Elem "value" EmptyString []));
    try reflexivity; apply numbered_older; reflexivity.
Defined.

Lemma wire_values_items (object : Param) (items : list value) :
  forall ws,
    wire_values object items = Some ws ->
    Forall2 (fun item w =>
               exists content,
                 wire object item = Some content /\
                 w = Elem "value" EmptyString [content])
      items ws.
Proof.
  induction items as [|item items IH]; intros ws W;
    cbn [wire_values] in W; fold (wire_values object) in W.
  - injection W as <-. constructor.
  - destruct (wire object item) as [content|] eqn:Wc; [|discriminate].
    destruct (wire_values object items) as [ws'|]; [|discriminate].
    injection W as <-. constructor; [|now apply IH].
    now exists content.
Qed.

(** X10: the encode fragment of a list appends one [array] element holding
    one [data] element, and under it one [value] element per item of the
    list, in the order of the list, each holding the element codec's
    encoding of that item; an empty list gives an empty [data]. *)
Theorem slice_encode_array {allocator : NameAllocator}
  (fresh : injective_names) (name typ : string) (object : Param)
  (items : list value) (ws : list Element)
  (element resultvar errvar : string) (n : nat)
  (env : environment) (doc : Element) (path : list nat) (target : Element) :
  wire_values object items = Some ws ->
  older n element -> older n resultvar ->
  lookup element env = Some (VElement path) ->
  lookup resultvar env = Some (VSlice items) ->
  subtree path doc = Some target ->
  Forall2 (fun item w =>
             exists content,
               wire object item = Some content /\
               w = Elem "value" EmptyString [content])
    items ws /\
  exists code new,
    fst (ToEtree (sliceParam name typ object) element resultvar errvar n)
      = render code /\
    exec code env doc =
    Some ((new ++ env)%list,
          graft doc path
            (Elem "array" EmptyString [Elem "data" EmptyString ws])).
Proof.
  intros W OE OR LE LR T. split; [now apply wire_values_items|].
  apply ToEtree_runs with (v := VSlice items) (target := target); auto.
  cbn [wire]. fold (wire_values object). now rewrite W.
Qed.

Lemma slice_encode_array_witness :
  exists code new,
    fst (ToEtree (allocator := numbered)
           (sliceParam "tags" "string" (stringParam "tags"))
           "doc" "tags" "err" 0) = render code /\
    exec code [("doc", VElement []); ("tags", VSlice [VString "a"; VString "b"])]
      (Elem "value" EmptyString []) =
    Some ((new ++ [("doc", VElement []);
                   ("tags", VSlice [VString "a"; VString "b"])])%list,
          Elem "value" EmptyString
            [ Elem "array" EmptyString
                [ Elem "data" EmptyString
                    [ Elem "value" EmptyString [Elem "string" "a" []];
                      Elem "value" EmptyString [Elem "string" "b" []] ] ] ]).
Proof.
  apply (slice_encode_array (allocator := numbered) numbered_injective
           "tags" "string" (stringParam "tags")
           [VString "a"; VString "b"]
           [ Elem "value" EmptyString [Elem "string" "a" []];
             Elem "value" EmptyString [Elem "string" "b" []] ]
           "doc" "tags" "err" 0
           [("doc", VElement []); ("tags", VSlice [VString "a"; VString "b"])]
           (Elem "value" EmptyString []) [] (Elem "value" EmptyString []));
    try reflexivity; apply numbered_older; reflexivity.
Defined.



Section ErrvarOfEncode.

Context {allocator : NameAllocator}.

Lemma ToEtree_range_ignores_errvar (params : list Param) :
  Forall (fun p => forall element resultvar errvar errvar' n,
            ToEtree p element resultvar errvar n =
            ToEtree p element resultvar errvar' n) params ->
  forall StructVar resultvar errvar errvar' n,
    ToEtree_range StructVar resultvar errvar params n =
    ToEtree_range StructVar resultvar errvar' params n.
Proof.
  induction 1 as [|p ps Hp _ IH]; intros StructVar resultvar errvar errvar' n.
  - reflexivity.
  - cbn [ToEtree_range]. unfold bind, ret, GenerateVariableName.
    fold (ToEtree_range StructVar resultvar errvar).
    fold (ToEtree_range StructVar resultvar errvar').
    rewrite (Hp _ _ errvar errvar').
    destruct (ToEtree p _ _ errvar' _) as [encoded n1].
    now rewrite (IH _ _ errvar errvar').
Qed.

(** X12: no encode fragment depends on the error variable it is given:
    for every node, the text and the names taken are the same whatever
    [errvar] is. *)
Theorem encode_ignores_errvar (p : Param) :
  forall element resultvar errvar errvar' n,
    ToEtree p element resultvar errvar n =
    ToEtree p element resultvar errvar' n.
Proof.
  induction p using Param_nested_ind;
    intros element resultvar errvar errvar' n; try reflexivity.
  - rewrite !ToEtree_struct. unfold bind, ret, GenerateVariableName.
    now rewrite (ToEtree_range_ignores_errvar _ H _ _ errvar errvar').
  - cbn [ToEtree]. unfold bind, ret, GenerateVariableName.
    now rewrite (IHp _ _ errvar errvar').
Qed.

End ErrvarOfEncode.

(** ** Declared names *)

Lemma declared_app (a b : list stmt) :
  declared (a ++ b) = (declared a ++ declared b)%list.
Proof.
  induction a as [|s a IH]; simpl; [reflexivity|].
  now rewrite IH, app_assoc.
Qed.

Lemma declared_stmt_ForRange x e body :
  declared_stmt (ForRange x e body) = x :: declared body.
Proof. reflexivity. Qed.

Section DeclaredOnce.

Context {allocator : NameAllocator}.
Hypothesis fresh : injective_names.

Lemma handed_out_nil (lo hi : nat) : handed_out lo hi [].
Proof. split; constructor. Qed.

Lemma handed_out_one (lo hi i : nat) (prefix : list string) :
  lo < i <= hi -> handed_out lo hi [name_of prefix i].
Proof.
  intros H. split; [repeat constructor; intros []|].
  repeat constructor. now exists prefix, i.
Qed.

Lemma handed_out_app (lo mid hi : nat) (a b : list string) :
  handed_out lo mid a -> handed_out mid hi b -> lo <= mid -> mid <= hi ->
  handed_out lo hi (a ++ b).
Proof.
  intros [Na Aa] [Nb Ab] L1 L2. split.
  - apply NoDup_app; auto. intros x Ia Ib.
    rewrite Forall_forall in Aa, Ab.
    destruct (Aa _ Ia) as (pa & i & Hi & ->).
    destruct (Ab _ Ib) as (pb & j & Hj & E).
    apply fresh in E. lia.
  - apply Forall_app. split.
    + eapply Forall_impl; [|exact Aa].
      intros x (pa & i & Hi & ->). exists pa, i. split; [lia | reflexivity].
    + eapply Forall_impl; [|exact Ab].
      intros x (pb & j & Hj & ->). exists pb, j. split; [lia | reflexivity].
Qed.

Lemma handed_out_range_code (params : list Param) :
  Forall (fun p => forall element resultvar errvar n,
            handed_out n (snd (ToEtreeCode p element resultvar errvar n))
              (declared (fst (ToEtreeCode p element resultvar errvar n))))
    params ->
  forall StructVar resultvar errvar n,
    handed_out n (snd (ToEtreeCode_range StructVar resultvar errvar params n))
      (declared (fst (ToEtreeCode_range StructVar resultvar errvar params n))).
Proof.
  induction 1 as [|p ps Hp _ IH]; intros StructVar resultvar errvar n.
  - apply handed_out_nil.
  - cbn [ToEtreeCode_range]. unfold bind, ret, GenerateVariableName.
    fold (ToEtreeCode_range StructVar resultvar errvar).
    specialize (Hp (name_of ["value"] (S (S n)))
                  (name_of ["struct_var"] (S (S (S n)))) errvar
                  (S (S (S n)))).
    pose proof (ToEtreeCode_counter p (name_of ["value"] (S (S n)))
                  (name_of ["struct_var"] (S (S (S n)))) errvar
                  (S (S (S n)))) as M1.
    destruct (ToEtreeCode p _ _ _ _) as [encoded n1].
    specialize (IH StructVar resultvar errvar n1).
    pose proof (ToEtreeCode_range_counter ps
                  ltac:(apply Forall_forall; intros; apply ToEtreeCode_counter)
                  StructVar resultvar errvar n1) as M2.
    destruct (ToEtreeCode_range _ _ _ ps n1) as [others n2].
    cbn [fst snd] in *.
    cbn [declared declared_stmt app]. rewrite !declared_app.
    cbn [declared declared_stmt app].
    change (handed_out n n2
              ([name_of ["member"] (S n)] ++ [name_of ["value"] (S (S n))] ++
               [name_of ["struct_var"] (S (S (S n)))] ++
               declared encoded ++ declared others)%list).
    apply handed_out_app with (mid := S n); try lia.
    { apply handed_out_one. lia. }
    apply handed_out_app with (mid := S (S n)); try lia.
    { apply handed_out_one. lia. }
    apply handed_out_app with (mid := S (S (S n))); try lia.
    { apply handed_out_one. lia. }
    apply handed_out_app with (mid := n1); try lia; assumption.
Qed.

Lemma handed_out_code (p : Param) :
  forall element resultvar errvar n,
    handed_out n (snd (ToEtreeCode p element resultvar errvar n))
      (declared (fst (ToEtreeCode p element resultvar errvar n))).
Proof.
  induction p using Param_nested_ind; intros element resultvar errvar n.
  - cbn. apply handed_out_one. lia.
  - cbn. apply handed_out_nil.
  - rewrite ToEtreeCode_struct. unfold bind, ret, GenerateVariableName.
    pose proof (handed_out_range_code _ H (name_of ["struct"] (S n))
                  resultvar errvar (S n)) as R.
    pose proof (ToEtreeCode_range_counter params
                  ltac:(apply Forall_forall; intros; apply ToEtreeCode_counter)
                  (name_of ["struct"] (S n)) resultvar errvar (S n)) as M.
    destruct (ToEtreeCode_range _ _ _ params _) as [members n1].
    cbn [fst snd] in *.
    cbn [declared declared_stmt app]. rewrite !declared_app.
    cbn [declared declared_stmt app]. rewrite app_nil_r.
    change (handed_out n n1
              ([name_of ["struct"] (S n)] ++ declared members)%list).
    apply handed_out_app with (mid := S n); try lia; [|assumption].
    apply handed_out_one. lia.
  - cbn [ToEtreeCode]. unfold bind, ret, GenerateVariableName.
    specialize (IHp (name_of ["value"] (S (S (S n))))
                  (name_of ["item"] (S (S n))) errvar (S (S (S n)))).
    pose proof (ToEtreeCode_counter p (name_of ["value"] (S (S (S n))))
                  (name_of ["item"] (S (S n))) errvar (S (S (S n)))) as M.
    destruct (ToEtreeCode p _ _ _ _) as [encoded n1].
    cbn [fst snd] in *.
    cbn [declared app]. rewrite declared_stmt_ForRange.
    cbn [declared declared_stmt app]. rewrite !declared_app.
    cbn [declared declared_stmt app]. rewrite !app_nil_r.
    change (handed_out n n1
              ([name_of ["array_data"] (S n)] ++
               [name_of ["item"] (S (S n))] ++
               [name_of ["value"] (S (S (S n)))] ++ declared encoded)%list).
    apply handed_out_app with (mid := S n); try lia.
    { apply handed_out_one. lia. }
    apply handed_out_app with (mid := S (S n)); try lia.
    { apply handed_out_one. lia. }
    apply handed_out_app with (mid := S (S (S n))); try lia; [|assumption].
    apply handed_out_one. lia.
  - cbn.
    change (handed_out n (S (S (S (S (S (S (S n)))))))
              ([name_of ["fault"] (5 + n)] ++ [name_of ["code"] (4 + n)] ++
               [name_of ["code"] (1 + n)] ++ [name_of ["ok"] (3 + n)] ++
               [name_of ["struct"] (2 + n)] ++ [name_of ["member"] (6 + n)] ++
               [name_of ["member"] (7 + n)])%list).
    split.
    + repeat constructor; cbn [In]; intros I;
        repeat (destruct I as [I|I]; [apply fresh in I; lia|]); exact I.
    + repeat constructor; eexists _, _; (split; [|reflexivity]); lia.
  - cbn. apply handed_out_nil.
Qed.


End DeclaredOnce.


(** * The statements of the decode fragments *)

Lemma render_decode_app (a b : list dstmt) :
  render_decode (a ++ b) = render_decode a ++ render_decode b.
Proof.
  induction a as [|s a IH]; simpl; [reflexivity|].
  now rewrite IH, append_assoc.
Qed.

Section DecodeFacts.

Context {allocator : NameAllocator}.

Lemma FromEtree_range_render (params : list Param) :
  Forall (fun p => forall element resultvar errvar n,
    FromEtree p element resultvar errvar n =
    (render_decode (fst (FromEtreeCode p element resultvar errvar n)),
     snd (FromEtreeCode p element resultvar errvar n))) params ->
  forall valueVar resultvar n,
    FromEtree_range valueVar resultvar params n =
    (render_decode (fst (FromEtreeCode_range valueVar resultvar params n)),
     snd (FromEtreeCode_range valueVar resultvar params n)).
Proof.
  induction 1 as [|p ps Hp _ IH]; intros valueVar resultvar n.
  - reflexivity.
  - cbn [FromEtree_range FromEtreeCode_range].
    unfold bind, ret, GenerateVariableName.
    fold (FromEtree_range valueVar resultvar).
    fold (FromEtreeCode_range valueVar resultvar).
    rewrite Hp.
    destruct (FromEtreeCode p _ _ _ _) as [code n']. cbn [fst snd].
    rewrite IH.
    destruct (FromEtreeCode_range _ _ ps n') as [codes n'']. cbn [fst snd].
    f_equal. cbn. rewrite !render_decode_app. cbn. norm_text. reflexivity.
Qed.

Lemma FromEtree_struct name typ params element resultvar errvar n :
  FromEtree (structParam name typ params) element resultvar errvar n =
  (temp <- GenerateVariableName ["name_elem"] ;;
   nameVar <- GenerateVariableName ["name"] ;;
   valueVar <- GenerateVariableName ["value"] ;;
   cases <- FromEtree_range valueVar resultvar params ;;
      ret (("
	// rendering struct
	" ++ resultvar ++ " := " ++ Type_ (structParam name typ params) ++ "{}

	" ++ "
	" ++ "
	" ++ "

	// Lets iterate over given members.
	// @TODO: we should check first " ++ dq ++ "struct" ++ dq ++ " if not provided it's probably error
	for _, member := range " ++ element ++ ".FindElements(" ++ dq ++ "struct/members" ++ dq ++ ") {
		var " ++ temp ++ " *etree.Element
		if " ++ temp ++ " = member.FindElement(" ++ dq ++ "name" ++ dq ++ "); " ++ temp ++ " == nil {
			return errors.New(" ++ dq ++ "no name provided" ++ dq ++ ")
		}

		" ++ nameVar ++ " := " ++ temp ++ ".Text()

		var " ++ valueVar ++ " *etree.Element
		if " ++ valueVar ++ " = member.FindElement(" ++ dq ++ "value" ++ dq ++ "); " ++ valueVar ++ " == nil {
			return errors.New(" ++ dq ++ "no name provided" ++ dq ++ ")
		}

		// switch over param names (over all params)
		switch " ++ nameVar ++ " {
			") ++ cases ++ "
		}
	}
	")) n.
Proof. reflexivity. Qed.

Lemma FromEtreeCode_struct name typ params element resultvar errvar n :
  FromEtreeCode (structParam name typ params) element resultvar errvar n =
  (temp <- GenerateVariableName ["name_elem"] ;;
   nameVar <- GenerateVariableName ["name"] ;;
   valueVar <- GenerateVariableName ["value"] ;;
   cases <- FromEtreeCode_range valueVar resultvar params ;;
   ret [ DSpace (line 1);
            DComment " rendering struct";
            DSpace (tabs 1);
            DefineLiteral resultvar (Type_ (structParam name typ params));
            DSpace (line 0 ++ line 1 ++ line 1 ++ line 1 ++ line 0 ++ line 1);
            DComment " Lets iterate over given members.";
            DSpace (tabs 1);
            DComment (" @TODO: we should check first " ++ dq ++ "struct" ++ dq
                      ++ " if not provided it's probably error");
            DSpace (tabs 1);
            ForFind "member" element "struct/members"
              ([ DSpace (line 2);
                 VarDecl temp "*etree.Element";
                 DSpace (line 2);
                 IfFindNil temp "member" "name"
                   [ DSpace (line 3);
                     ReturnNew "no name provided";
                     DSpace (line 2) ];
                 DSpace (line 0 ++ line 2);
                 DefineText nameVar temp;
                 DSpace (line 0 ++ line 2);
                 VarDecl valueVar "*etree.Element";
                 DSpace (line 2);
                 IfFindNil valueVar "member" "value"
                   [ DSpace (line 3);
                     ReturnNew "no name provided";
                     DSpace (line 2) ];
                 DSpace (line 0 ++ line 2);
                 DComment " switch over param names (over all params)";
                 DSpace (tabs 2);
                 Switch nameVar
                   ([ DSpace (line 3) ] ++ cases ++ [ DSpace (line 2) ])%list;
                 DSpace (line 1) ]);
            DSpace (line 1) ]) n.
Proof. reflexivity. Qed.

(** The text that [FromEtree] returns is the rendering of the statements
    of [FromEtreeCode], and both leave the counter at the same value. *)
Lemma FromEtree_render (p : Param) :
  forall element resultvar errvar n,
    FromEtree p element resultvar errvar n =
    (render_decode (fst (FromEtreeCode p element resultvar errvar n)),
     snd (FromEtreeCode p element resultvar errvar n)).
Proof.
  induction p using Param_nested_ind; intros element resultvar errvar n.
  - cbn. norm_text. reflexivity.
  - cbn. norm_text. reflexivity.
  - rewrite FromEtree_struct, FromEtreeCode_struct.
    unfold bind, ret, GenerateVariableName.
    rewrite (FromEtree_range_render _ H).
    destruct (FromEtreeCode_range _ _ params _) as [cases n1].
    cbn [fst snd]. f_equal. cbn. rewrite !render_decode_app. cbn.
    norm_text. reflexivity.
  - cbn [FromEtree FromEtreeCode]. unfold bind, ret, GenerateVariableName.
    rewrite IHp.
    destruct (FromEtreeCode p _ _ _ _) as [code n1]. cbn.
    rewrite !render_decode_app. cbn. norm_text. reflexivity.
  - reflexivity.
  - cbn. norm_text. reflexivity.
Qed.

Lemma all_follow_app (errvar : string) (a b : list dstmt) :
  all_follow errvar (a ++ b) = all_follow errvar a && all_follow errvar b.
Proof.
  induction a as [|s a IH]; simpl; [reflexivity|].
  fold (all_follow errvar). now rewrite IH, andb_assoc.
Qed.

Lemma convention_of_code (p : Param) :
  forall element resultvar errvar n,
    all_follow errvar (fst (FromEtreeCode p element resultvar errvar n)) =
    struct_free p.
Proof.
  induction p using Param_nested_ind; intros element resultvar errvar n.
  - cbn. now rewrite String.eqb_refl.
  - cbn. now rewrite String.eqb_refl.
  - rewrite FromEtreeCode_struct. unfold bind, ret, GenerateVariableName.
    destruct (FromEtreeCode_range _ _ params _) as [cases n1].
    reflexivity.
  - cbn [FromEtreeCode]. unfold bind, ret, GenerateVariableName.
    specialize (IHp (name_of ["member"] (S n)) (name_of ["value"] (S (S n)))
                  errvar (S (S n))).
    destruct (FromEtreeCode p _ _ _ _) as [decoded n1]. cbn [fst] in *.
    cbn [all_follow follows_convention struct_free andb].
    fold (all_follow errvar). rewrite !all_follow_app, IHp.
    cbn. now rewrite !andb_true_r.
  - reflexivity.
  - cbn. now rewrite String.eqb_refl.
Qed.

End DecodeFacts.


(** * The counter *)

Section Counter.

Context {allocator : NameAllocator}.

Lemma ToEtree_range_names (params : list Param) :
  Forall (fun p => forall element resultvar errvar n,
            snd (ToEtree p element resultvar errvar n) = n + encode_names p)
    params ->
  forall StructVar resultvar errvar n,
    snd (ToEtree_range StructVar resultvar errvar params n) =
    n + encode_names_of_children params.
Proof.
  induction 1 as [|p ps Hp _ IH]; intros StructVar resultvar errvar n.
  - cbn. lia.
  - cbn [ToEtree_range]. unfold bind, ret, GenerateVariableName.
    fold (ToEtree_range StructVar resultvar errvar).
    specialize (Hp (name_of ["value"] (S (S n)))
                  (name_of ["struct_var"] (S (S (S n)))) errvar
                  (S (S (S n)))).
    destruct (ToEtree p _ _ _ _) as [encoded n1].
    specialize (IH StructVar resultvar errvar n1).
    destruct (ToEtree_range _ _ _ ps n1) as [others n2].
    cbn [snd encode_names_of_children] in *.
    fold encode_names_of_children. lia.
Qed.

Lemma ToEtree_names (p : Param) :
  forall element resultvar errvar n,
    snd (ToEtree p element resultvar errvar n) = n + encode_names p.
Proof.
  induction p using Param_nested_ind; intros element resultvar errvar n;
    try (cbn; lia).
  - rewrite ToEtree_struct. unfold bind, ret, GenerateVariableName.
    pose proof (ToEtree_range_names _ H (name_of ["struct"] (S n))
                  resultvar errvar (S n)) as R.
    destruct (ToEtree_range _ _ _ params _) as [members n1].
    change (encode_names (structParam name typ params))
      with (1 + encode_names_of_children params).
    cbn [snd] in *. lia.
  - cbn [ToEtree]. unfold bind, ret, GenerateVariableName.
    specialize (IHp (name_of ["value"] (S (S (S n))))
                  (name_of ["item"] (S (S n))) errvar (S (S (S n)))).
    destruct (ToEtree p _ _ _ _) as [encoded n1].
    cbn [snd encode_names] in *. lia.
Qed.

Lemma FromEtree_range_names (params : list Param) :
  Forall (fun p => forall element resultvar errvar n,
            snd (FromEtree p element resultvar errvar n) = n + decode_names p)
    params ->
  forall valueVar resultvar n,
    snd (FromEtree_range valueVar resultvar params n) =
    n + decode_names_of_children params.
Proof.
  induction 1 as [|p ps Hp _ IH]; intros valueVar resultvar n.
  - cbn. lia.
  - cbn [FromEtree_range]. unfold bind, ret, GenerateVariableName.
    fold (FromEtree_range valueVar resultvar).
    specialize (Hp valueVar (name_of [] (S n)) "err" (S n)).
    destruct (FromEtree p _ _ _ _) as [decoded n1].
    specialize (IH valueVar resultvar n1).
    destruct (FromEtree_range _ _ ps n1) as [others n2].
    cbn [snd decode_names_of_children] in *.
    fold decode_names_of_children. lia.
Qed.

Lemma FromEtree_names (p : Param) :
  forall element resultvar errvar n,
    snd (FromEtree p element resultvar errvar n) = n + decode_names p.
Proof.
  induction p using Param_nested_ind; intros element resultvar errvar n;
    try (cbn; lia).
  - rewrite FromEtree_struct. unfold bind, ret, GenerateVariableName.
    pose proof (FromEtree_range_names _ H (name_of ["value"] (S (S (S n))))
                  resultvar (S (S (S n)))) as R.
    destruct (FromEtree_range _ _ params _) as [cases n1].
    change (decode_names (structParam name typ params))
      with (3 + decode_names_of_children params).
    cbn [snd] in *. lia.
  - cbn [FromEtree]. unfold bind, ret, GenerateVariableName.
    specialize (IHp (name_of ["member"] (S n)) (name_of ["value"] (S (S n)))
                  errvar (S (S n))).
    destruct (FromEtree p _ _ _ _) as [decoded n1].
    cbn [snd decode_names] in *. lia.
Qed.

(** X15: how far a fragment moves the name counter depends on the node
    alone, not on the variables it is given nor on where the counter
    stands: a boolean or a string takes one name to encode (the string's
    is never used), a failure seven, a list three and a structure one plus
    three per child, besides what the children take; decoding takes names
    only for lists (two) and structures (three plus one per child). *)
Theorem names_taken_depend_on_node_only (p : Param)
  (element resultvar errvar : string) (n : nat) :
  snd (ToEtree p element resultvar errvar n) = n + encode_names p /\
  snd (FromEtree p element resultvar errvar n) = n + decode_names p.
Proof. split; [apply ToEtree_names | apply FromEtree_names]. Qed.

End Counter.
